(** * FixtureGenerator: the draw stage and the lottery machine

    A shallow embedding of [DrawStage.tsx] (bracket planner, [drawPlayer],
    the pacing-timer effect, [toggleDraw]) and of the effects of
    [LotteryMachine.tsx] that touch the simulation (gravity toggle,
    attractor handler, ejection), followed by the properties proved of them.
    Also embedded: [InputStage.tsx] (the parsing of names, the shuffle, the
    assignment of numbers), the stage switching of [App.tsx], the
    initialisation of the lottery machine and its re-rendering with the draw
    stage, and the header of the draw stage.

    Conventions.
    - React state is a record; a callback is a function from the state of the
      render it closes over to the state of the next render.  The interval is
      re-armed after every render, so every call of [drawPlayer] sees the
      state left by the previous one.
    - JavaScript numbers that only ever hold integers and halves of integers
      (player counts, the planner's arithmetic) are exact in binary floating
      point; they are modelled as [Z] and [Q].
    - [Math.random()] returns a value of the half-open interval from 0 to 1;
      [crypto.randomUUID()] returns a string.  Both are inputs of the model.
    - The numbers of the physics (positions, masses, forces) are rounded
      floating-point values: their operations, and the calls into matter-js,
      are interfaces ([JSNumber], [MatterJS]) that the handler is written
      against. *)

From Stdlib Require Import String.
From Stdlib Require Import List ZArith QArith Qround Bool Lia Permutation.
From Stdlib Require Import Sorted FinFun.
Import ListNotations.

Local Open Scope Z_scope.

(** ** types.ts *)

Record Player := mkPlayer {
  player_id : string;
  name : string;
  number : Z
}.

Record Fixture := mkFixture {
  fixture_id : string;
  home : Player;
  away : option Player   (* null implies a bye *)
}.

(** ** Random inputs *)

(** A value of [Math.random()]: the rational [numer / (numer + gap + 1)].
    Every rational [p/q] with [0 <= p < q] is of this form (take [numer = p],
    [gap = q - p - 1]) and every value of this form lies in the interval. *)
Record Random := mkRandom {
  numer : nat;
  gap : nat
}.

Definition denom (r : Random) : nat := (numer r + gap r + 1)%nat.

Definition Random_value (r : Random) : Q :=
  Z.of_nat (numer r) # Pos.of_nat (denom r).

(** [Math.floor(Math.random() * len)] *)
Definition randomIndexOf (r : Random) (len : nat) : nat :=
  ((numer r * len) / denom r)%nat.

(** ** DrawStage.tsx: state *)

Record DrawStage := mkDrawStage {
  remainingPlayers : list Player;
  fixtures : list Fixture;
  currentHome : option Player;
  lastDrawnNumber : option Z;
  isDrawing : bool;
  drawHistory : list string
}.

(** [useState] initial values. *)
Definition initialStage (initialPlayers : list Player) : DrawStage :=
  {| remainingPlayers := initialPlayers;
     fixtures := [];
     currentHome := None;
     lastDrawnNumber := None;
     isDrawing := false;
     drawHistory := [] |}.

(** ** DrawStage.tsx: bracket structure *)

(** [Math.pow(2, Math.ceil(Math.log2(totalPlayers)))], evaluated only for
    [totalPlayers >= 2], where [Z.log2_up] is the ceiling of the binary
    logarithm. *)
Definition nextPowerOf2 (totalPlayers : Z) : Z :=
  2 ^ Z.log2_up totalPlayers.

Definition byesNeeded (totalPlayers : Z) : Z :=
  nextPowerOf2 totalPlayers - totalPlayers.

(** The [/] of JavaScript is not integer division: the quotient is kept as a
    rational. *)
Definition matchesNeeded (totalPlayers : Z) : Q :=
  if totalPlayers <? 2 then 0%Q
  else (inject_Z (totalPlayers - byesNeeded totalPlayers) / 2)%Q.

Definition totalPlayers (initialPlayers : list Player) : Z :=
  Z.of_nat (length initialPlayers).

(** ** DrawStage.tsx: drawPlayer *)

(** [a < b] on numbers. *)
Definition Qltb (a b : Q) : bool := negb (Qle_bool b a).

(** [l.splice(i, 1)] on a copy of [l]: nothing is removed when [i] is past
    the end. *)
Definition splice1 {A : Type} (i : nat) (l : list A) : list A :=
  firstn i l ++ skipn (S i) l.

Definition isMatch (f : Fixture) : bool :=
  match away f with Some _ => true | None => false end.

Definition isBye (f : Fixture) : bool := negb (isMatch f).

(** [fixtures.filter(f => f.away !== null).length] *)
Definition matchesSoFar (fs : list Fixture) : nat :=
  length (filter isMatch fs).

Definition byesSoFar (fs : list Fixture) : nat :=
  length (filter isBye fs).

(** One call of [drawPlayer], with the value [r] of [Math.random()] and the
    value [uuid] of [crypto.randomUUID()].  [None] is the [TypeError] of
    [drawn.number] on an index outside the array. *)
Definition drawPlayer (matchesNeeded : Q) (r : Random) (uuid : string)
    (s : DrawStage) : option DrawStage :=
  match remainingPlayers s with
  | [] =>
      Some {| remainingPlayers := remainingPlayers s;
              fixtures := fixtures s;
              currentHome := currentHome s;
              lastDrawnNumber := lastDrawnNumber s;
              isDrawing := false;
              drawHistory := drawHistory s |}
  | _ :: _ =>
      let randomIndex := randomIndexOf r (length (remainingPlayers s)) in
      match nth_error (remainingPlayers s) randomIndex with
      | None => None
      | Some drawn =>
          let newRemaining := splice1 randomIndex (remainingPlayers s) in
          if Qltb (inject_Z (Z.of_nat (matchesSoFar (fixtures s)))) matchesNeeded
          then
            match currentHome s with
            | Some waiting =>
                Some {| remainingPlayers := newRemaining;
                        fixtures :=
                          {| fixture_id := uuid; home := waiting;
                             away := Some drawn |} :: fixtures s;
                        currentHome := None;
                        lastDrawnNumber := Some (number drawn);
                        isDrawing := isDrawing s;
                        drawHistory :=
                          (name drawn ++ " drawn vs " ++ name waiting)%string
                          :: drawHistory s |}
            | None =>
                Some {| remainingPlayers := newRemaining;
                        fixtures := fixtures s;
                        currentHome := Some drawn;
                        lastDrawnNumber := Some (number drawn);
                        isDrawing := isDrawing s;
                        drawHistory :=
                          (name drawn ++ " drawn as Home")%string
                          :: drawHistory s |}
            end
          else
            Some {| remainingPlayers := newRemaining;
                    fixtures :=
                      {| fixture_id := uuid; home := drawn; away := None |}
                      :: fixtures s;
                    currentHome := currentHome s;
                    lastDrawnNumber := Some (number drawn);
                    isDrawing := isDrawing s;
                    drawHistory :=
                      (name drawn ++ " receives a BYE!")%string
                      :: drawHistory s |}
      end
  end.

(** ** DrawStage.tsx: pacing timer and start/pause control *)

Definition DRAW_INTERVAL_MS : Z := 5000.

(** The [useEffect] on [isDrawing], [remainingPlayers.length] and
    [drawPlayer]: the period of the interval it arms, if any, and the state
    after its [setIsDrawing]. *)
Definition pacingEffect (s : DrawStage) : option Z * DrawStage :=
  if isDrawing s && (0 <? length (remainingPlayers s))%nat then
    (Some DRAW_INTERVAL_MS, s)
  else if (length (remainingPlayers s) =? 0)%nat then
    (None, {| remainingPlayers := remainingPlayers s;
              fixtures := fixtures s;
              currentHome := currentHome s;
              lastDrawnNumber := lastDrawnNumber s;
              isDrawing := false;
              drawHistory := drawHistory s |})
  else (None, s).

Definition toggleDraw (s : DrawStage) : DrawStage :=
  if (0 <? length (remainingPlayers s))%nat then
    {| remainingPlayers := remainingPlayers s;
       fixtures := fixtures s;
       currentHome := currentHome s;
       lastDrawnNumber := lastDrawnNumber s;
       isDrawing := negb (isDrawing s);
       drawHistory := drawHistory s |}
  else s.

(** ** Runs of the draw stage *)

(** The component of the draw stage mounted on [initialPlayers]. *)
Definition stageMatches (initialPlayers : list Player) : Q :=
  matchesNeeded (totalPlayers initialPlayers).

(** Successive calls of [drawPlayer], one per timer tick. *)
Fixpoint drawAll (m : Q) (ticks : list (Random * string)) (s : DrawStage)
    : option DrawStage :=
  match ticks with
  | [] => Some s
  | (r, uuid) :: rest =>
      match drawPlayer m r uuid s with
      | Some s' => drawAll m rest s'
      | None => None
      end
  end.

(** Everything that can happen to the state of a mounted draw stage. *)
Inductive StageEvent :=
| Tick (r : Random) (uuid : string)   (* the interval fires [drawPlayer] *)
| EffectRun                           (* the pacing effect runs after a render *)
| ToggleClick.                        (* the start/pause button *)

Definition stageStep (m : Q) (e : StageEvent) (s : DrawStage)
    : option DrawStage :=
  match e with
  | Tick r uuid => drawPlayer m r uuid s
  | EffectRun => Some (snd (pacingEffect s))
  | ToggleClick => Some (toggleDraw s)
  end.

Fixpoint stageRun (m : Q) (es : list StageEvent) (s : DrawStage)
    : option DrawStage :=
  match es with
  | [] => Some s
  | e :: rest =>
      match stageStep m e s with
      | Some s' => stageRun m rest s'
      | None => None
      end
  end.

(** The entry numbers held by the slots of a fixture, and by the pending-home
    slot. *)
Definition fixtureNumbers (f : Fixture) : list Z :=
  number (home f) ::
  match away f with Some p => [number p] | None => [] end.

Definition pendingNumbers (h : option Player) : list Z :=
  match h with Some p => [number p] | None => [] end.

(** The quantity of the conservation invariant. *)
Definition accounted (s : DrawStage) : nat :=
  (length (remainingPlayers s)
   + (match currentHome s with Some _ => 1 | None => 0 end)
   + 2 * matchesSoFar (fixtures s)
   + byesSoFar (fixtures s))%nat.

(** [setIsDrawing(b)] alone. *)
Definition setIsDrawing (b : bool) (s : DrawStage) : DrawStage :=
  {| remainingPlayers := remainingPlayers s;
     fixtures := fixtures s;
     currentHome := currentHome s;
     lastDrawnNumber := lastDrawnNumber s;
     isDrawing := b;
     drawHistory := drawHistory s |}.

(** The four outcomes of a call of [drawPlayer], as a step relation on the
    state: the pool was empty; the drawn entrant waits as home; it completes
    a match; it receives a bye. *)
Inductive Drawn (m : Q) (uuid : string) (s : DrawStage) : DrawStage -> Prop :=
| Drawn_finished :
    remainingPlayers s = [] ->
    Drawn m uuid s (setIsDrawing false s)
| Drawn_home (i : nat) (drawn : Player) :
    nth_error (remainingPlayers s) i = Some drawn ->
    Qltb (inject_Z (Z.of_nat (matchesSoFar (fixtures s)))) m = true ->
    currentHome s = None ->
    Drawn m uuid s
      {| remainingPlayers := splice1 i (remainingPlayers s);
         fixtures := fixtures s;
         currentHome := Some drawn;
         lastDrawnNumber := Some (number drawn);
         isDrawing := isDrawing s;
         drawHistory :=
           (name drawn ++ " drawn as Home")%string :: drawHistory s |}
| Drawn_match (i : nat) (drawn waiting : Player) :
    nth_error (remainingPlayers s) i = Some drawn ->
    Qltb (inject_Z (Z.of_nat (matchesSoFar (fixtures s)))) m = true ->
    currentHome s = Some waiting ->
    Drawn m uuid s
      {| remainingPlayers := splice1 i (remainingPlayers s);
         fixtures :=
           {| fixture_id := uuid; home := waiting; away := Some drawn |}
           :: fixtures s;
         currentHome := None;
         lastDrawnNumber := Some (number drawn);
         isDrawing := isDrawing s;
         drawHistory :=
           (name drawn ++ " drawn vs " ++ name waiting)%string
           :: drawHistory s |}
| Drawn_bye (i : nat) (drawn : Player) :
    nth_error (remainingPlayers s) i = Some drawn ->
    Qltb (inject_Z (Z.of_nat (matchesSoFar (fixtures s)))) m = false ->
    Drawn m uuid s
      {| remainingPlayers := splice1 i (remainingPlayers s);
         fixtures :=
           {| fixture_id := uuid; home := drawn; away := None |}
           :: fixtures s;
         currentHome := currentHome s;
         lastDrawnNumber := Some (number drawn);
         isDrawing := isDrawing s;
         drawHistory :=
           (name drawn ++ " receives a BYE!")%string :: drawHistory s |}.

(** Every entry number held by the state, slot by slot: the pool, the
    pending-home slot, the home and away slots of the fixtures. *)
Definition slotNumbers (s : DrawStage) : list Z :=
  map number (remainingPlayers s)
  ++ pendingNumbers (currentHome s)
  ++ flat_map fixtureNumbers (fixtures s).

(** What the routing maintains for [N] entrants and a quota of [M] matches:
    nobody is lost, the quota is not exceeded, no bye is given before the
    quota is met and nobody waits as home once it is. *)
Record BracketInv (N M : nat) (s : DrawStage) : Prop := {
  inv_accounted : accounted s = N;
  inv_quota : (matchesSoFar (fixtures s) <= M)%nat;
  inv_no_early_bye :
    (matchesSoFar (fixtures s) < M)%nat -> byesSoFar (fixtures s) = 0%nat;
  inv_no_late_home :
    matchesSoFar (fixtures s) = M -> currentHome s = None
}.

(** [N] is [2^e] for some [e >= 1]. *)
Definition powerOfTwo (N : Z) : Prop := exists e : Z, 1 <= e /\ N = 2 ^ e.

(** ** LotteryMachine.tsx *)

(** The numbers of the simulation are floating-point values.  Their
    arithmetic is taken as an interface, so that nothing proved below depends
    on how an operation rounds: [lit q] is the value of the decimal literal
    [q]. *)
Class JSNumber (num : Type) := {
  lit : Q -> num;
  num_add : num -> num -> num;
  num_sub : num -> num -> num;
  num_mul : num -> num -> num;
  num_div : num -> num -> num;
  Math_sqrt : num -> num;
  num_lt : num -> num -> bool;
  num_gt : num -> num -> bool
}.

(** What the component uses of matter-js: the position and the mass of a
    body, and [Matter.World.remove]. *)
Class MatterJS (num Body Composite : Type) := {
  position : Body -> num * num;
  mass : Body -> num;
  World_remove : Composite -> Body -> Composite
}.

(** A JavaScript [Map] with number keys, in insertion order. *)
Definition JSMap (V : Type) : Type := list (Z * V).

Definition Map_get {V : Type} (k : Z) (m : JSMap V) : option V :=
  match find (fun e => fst e =? k) m with
  | Some e => Some (snd e)
  | None => None
  end.

Definition Map_delete {V : Type} (k : Z) (m : JSMap V) : JSMap V :=
  filter (fun e => negb (fst e =? k)) m.

Definition Map_values {V : Type} (m : JSMap V) : list V := map snd m.

Declare Scope num_scope.

Section LotteryMachine.

Context {num Body Composite : Type}.

(** [engine.world] and [engine.world.gravity.y]. *)
Record Engine := mkEngine {
  world : Composite;
  gravity_y : num
}.

(** The refs of the component that the effects below read and write. *)
Record Machine := mkMachine {
  engineRef : option Engine;
  bodiesRef : JSMap Body;
  isDrawingRef : bool
}.

(** The calls the attractor handler makes into matter-js. *)
Inductive MatterCall :=
| Body_applyForce (body : Body) (at_position : num * num) (force : num * num)
| Body_setAngularVelocity (body : Body) (velocity : num).

Context `{JSNumber num} `{MatterJS num Body Composite}.

Local Notation "a + b" := (num_add a b) : num_scope.
Local Notation "a - b" := (num_sub a b) : num_scope.
Local Notation "a * b" := (num_mul a b) : num_scope.
Local Notation "a / b" := (num_div a b) : num_scope.
Local Open Scope num_scope.

(** The [useEffect] on [isDrawing]: sync the ref, toggle gravity. *)
Definition gravityEffect (isDrawing : bool) (s : Machine) : Machine :=
  {| engineRef :=
       match engineRef s with
       | Some engine =>
           Some {| world := world engine;
                   gravity_y := if isDrawing then lit 0 else lit 1 |}
       | None => None
       end;
     bodiesRef := bodiesRef s;
     isDrawingRef := isDrawing |}.

(** The [useEffect] on [drawnNumber]: ejection. *)
Definition ejectionEffect (drawnNumber : option Z) (s : Machine) : Machine :=
  match drawnNumber, engineRef s with
  | Some n, Some engine =>
      match Map_get n (bodiesRef s) with
      | Some body =>
          {| engineRef :=
               Some {| world := World_remove (world engine) body;
                       gravity_y := gravity_y engine |};
             bodiesRef := Map_delete n (bodiesRef s);
             isDrawingRef := isDrawingRef s |}
      | None => s
      end
  | _, _ => s
  end.

(** The body of the [forEach] of the attractor handler, for one body.
    [random k] is the value of the [k]-th call of [Math.random()]; the
    result carries the number of calls made so far. *)
Definition attract (width height : num) (random : nat -> num)
    (body : Body) (k : nat) : list MatterCall * nat :=
  let centerX := width / lit 2 in
  let centerY := height / lit 2 in
  let dx := centerX - fst (position body) in
  let dy := centerY - snd (position body) in
  let distanceSq := dx * dx + dy * dy in
  let distance := Math_sqrt distanceSq in
  if num_lt distance (lit 1) then ([], k)
  else
    let strength := lit (2 # 100000) * mass body in
    let turbulence := lit (15 # 1000) * mass body in
    let force :=
      ((dx * strength) + (random k - lit (5 # 10)) * turbulence,
       (dy * strength) + (random (S k) - lit (5 # 10)) * turbulence) in
    if num_gt (random (S (S k))) (lit (9 # 10)) then
      ([Body_applyForce body (position body) force;
        Body_setAngularVelocity body
          ((random (S (S (S k))) - lit (5 # 10)) * lit (1 # 10))],
       S (S (S (S k))))
    else ([Body_applyForce body (position body) force], S (S (S k))).

Fixpoint forEachBody (width height : num) (random : nat -> num)
    (bodies : list Body) (k : nat) : list MatterCall * nat :=
  match bodies with
  | [] => ([], k)
  | body :: rest =>
      let (calls, k1) := attract width height random body k in
      let (calls', k2) := forEachBody width height random rest k1 in
      (calls ++ calls', k2)
  end.

(** The [beforeUpdate] handler registered on the engine. *)
Definition beforeUpdate (width height : num) (random : nat -> num)
    (s : Machine) (k : nat) : list MatterCall * nat :=
  if negb (isDrawingRef s) then ([], k)
  else forEachBody width height random (Map_values (bodiesRef s)) k.


End LotteryMachine.

Arguments Engine : clear implicits.
Arguments Machine : clear implicits.
Arguments MatterCall : clear implicits.

(** The planner's count as an integer: the entrants above half the bracket. *)
Definition matchesInt (N : Z) : Z := N - 2 ^ (Z.log2_up N - 1).

(** ** Sample data

    The entrants and the draw order of the worked scenario (C, A, E, B, D out
    of A..E), and a reference instance of the simulation interfaces on which
    the machine can be run: rational arithmetic, with square roots rounded
    down to a multiple of [2^-16], and balls told apart by their label. *)

Definition playerA : Player := mkPlayer "id-a" "A" 1.
Definition playerB : Player := mkPlayer "id-b" "B" 2.
Definition playerC : Player := mkPlayer "id-c" "C" 3.
Definition playerD : Player := mkPlayer "id-d" "D" 4.
Definition playerE : Player := mkPlayer "id-e" "E" 5.

Definition fiveEntrants : list Player :=
  [playerA; playerB; playerC; playerD; playerE].

Definition fourEntrants : list Player :=
  [playerA; playerB; playerC; playerD].

Definition scenarioTicks : list (Random * string) :=
  [(mkRandom 2 2, "f1"%string); (mkRandom 0 0, "f2"%string);
   (mkRandom 2 0, "f3"%string); (mkRandom 0 0, "f4"%string);
   (mkRandom 0 0, "f5"%string)].

Definition scenarioEnd : DrawStage :=
  {| remainingPlayers := [];
     fixtures :=
       [ mkFixture "f5" playerD None; mkFixture "f4" playerB None;
         mkFixture "f3" playerE None; mkFixture "f2" playerC (Some playerA) ];
     currentHome := None;
     lastDrawnNumber := Some 4;
     isDrawing := false;
     drawHistory :=
       [ "D receives a BYE!"; "B receives a BYE!"; "E receives a BYE!";
         "A drawn vs C"; "C drawn as Home" ]%string |}.

Definition Q_sqrt_floor (q : Q) : Q :=
  Z.sqrt (Qnum q * Z.pos (Qden q) * 2 ^ 32) # (Qden q * 2 ^ 16).

#[export] Instance Q_JSNumber : JSNumber Q := {|
  lit := fun q => q;
  num_add := Qplus;
  num_sub := Qminus;
  num_mul := Qmult;
  num_div := Qdiv;
  Math_sqrt := Q_sqrt_floor;
  num_lt := Qltb;
  num_gt := fun a b => Qltb b a
|}.

Record Ball := mkBall {
  label : Z;
  ball_position : Q * Q;
  ball_mass : Q
}.

#[export] Instance Ball_MatterJS : MatterJS Q Ball (list Ball) := {|
  position := ball_position;
  mass := ball_mass;
  World_remove := fun w b => filter (fun b' => negb (label b' =? label b)) w
|}.

Definition ball1 : Ball := mkBall 1 (0, 250)%Q 72.
Definition ball2 : Ball := mkBall 2 (300, 250)%Q 72.

Definition sampleEngine : Engine Q (list Ball) :=
  {| world := [ball1; ball2]; gravity_y := 1%Q |}.

Definition sampleMachine : Machine Q Ball (list Ball) :=
  {| engineRef := Some sampleEngine;
     bodiesRef := [(1, ball1); (2, ball2)];
     isDrawingRef := false |}.

(** The size of the canvas, as [DrawStage] passes it. *)
Definition sampleWidth : Q := 600.
Definition sampleHeight : Q := 500.

(** A source of random values that always answers one half. *)
Definition sampleRandom : nat -> Q := fun _ => (1 # 2)%Q.

(** ** InputStage.tsx *)

(** The two steps of the input stage: 1 is entering names, 2 is reviewing
    the assigned numbers. *)
Inductive InputStep := step1 | step2.

Record InputStage := mkInputStage {
  inputText : string;
  assignedPlayers : list Player;
  step : InputStep
}.

(** [useState] initial values. *)
Definition initialInput : InputStage :=
  {| inputText := ""; assignedPlayers := []; step := step1 |}.

Definition newline : Ascii.ascii := Ascii.ascii_of_nat 10.

(** [text.split('\n')]: the pieces between line feeds, empty ones included;
    the empty string has one empty piece. *)
Fixpoint split_lines (text : string) : list string :=
  match text with
  | EmptyString => [EmptyString]
  | String c rest =>
      if Ascii.eqb c newline then EmptyString :: split_lines rest
      else
        match split_lines rest with
        | line :: lines => String c line :: lines
        | [] => [String c EmptyString]
        end
  end.

(** [Array.from({ length: n }, (_, i) => i + 1)] *)
Definition numbersUpTo (n : nat) : list Z :=
  map (fun i => Z.of_nat i + 1) (seq 0 n).

(** [a[i] = x] on an index of the array; the array is left alone past its
    end (where the callers below never write). *)
Fixpoint setAt {A : Type} (i : nat) (x : A) (a : list A) : list A :=
  match a, i with
  | [], _ => []
  | _ :: rest, O => x :: rest
  | y :: rest, S i' => y :: setAt i' x rest
  end.

(** [[a[i], a[j]] = [a[j], a[i]]]: both elements are read, then [a[i]] and
    [a[j]] are written.  [None] stands for an index outside the array, where
    JavaScript would read [undefined] into an array of numbers. *)
Definition swap {A : Type} (i j : nat) (a : list A) : option (list A) :=
  match nth_error a j, nth_error a i with
  | Some aj, Some ai => Some (setAt j ai (setAt i aj a))
  | _, _ => None
  end.

(** The Fisher-Yates loop, [for (let i = ...; i > 0; i--)], entered at [i]
    with [k] calls of [Math.random()] already made. *)
Fixpoint fisherYates (random : nat -> Random) (k : nat) (i : nat)
    (numbers : list Z) : option (list Z) :=
  match i with
  | O => Some numbers
  | S i' =>
      let j := randomIndexOf (random k) (i + 1) in
      match swap i j numbers with
      | Some swapped => fisherYates random (S k) i' swapped
      | None => None
      end
  end.

(** [names.map((name, index) => ({ id: crypto.randomUUID(), name, number:
    numbers[index] }))], from [index] on; [uuid index] is the identifier
    drawn for that element. *)
Fixpoint assignNumbers (uuid : nat -> string) (numbers : list Z)
    (names : list string) (index : nat) : option (list Player) :=
  match names with
  | [] => Some []
  | nm :: rest =>
      match nth_error numbers index with
      | None => None
      | Some n =>
          match assignNumbers uuid numbers rest (S index) with
          | Some players =>
              Some ({| player_id := uuid index; name := nm; number := n |}
                    :: players)
          | None => None
          end
      end
  end.

(** [.sort((a, b) => a.number - b.number)].  [Array.prototype.sort] is a
    stable sort; it is given here as an insertion sort, which is one. *)
Fixpoint insertByNumber (p : Player) (sorted : list Player) : list Player :=
  match sorted with
  | [] => [p]
  | q :: rest =>
      if number p - number q <=? 0 then p :: q :: rest
      else q :: insertByNumber p rest
  end.

Definition sortByNumber (players : list Player) : list Player :=
  fold_right insertByNumber [] players.

Section InputStageHandlers.

(** [String.prototype.trim], which strips the white space and line
    terminators of Unicode from both ends. *)
Variable trim : string -> string.

(** The names of [handleProcess]: the trimmed lines that are not empty. *)
Definition parseNames (text : string) : list string :=
  filter (fun n => (0 <? String.length n)%nat) (map trim (split_lines text)).

(** [handleProcess]: the next state and the message of the [alert], if any.
    [random k] and [uuid k] are the values of the [k]-th calls of
    [Math.random()] and [crypto.randomUUID()]. *)
Definition handleProcess (random : nat -> Random) (uuid : nat -> string)
    (s : InputStage) : option (InputStage * option string) :=
  let names := parseNames (inputText s) in
  if (length names <? 2)%nat then
    Some (s, Some "Please enter at least 2 players."%string)
  else
    let n := length names in
    let numbers := numbersUpTo n in
    match fisherYates random 0 (length numbers - 1) numbers with
    | None => None
    | Some shuffled =>
        match assignNumbers uuid shuffled names 0 with
        | None => None
        | Some players =>
            Some ({| inputText := inputText s;
                     assignedPlayers := sortByNumber players;
                     step := step2 |}, None)
        end
    end.

End InputStageHandlers.

(** [handleReset] of the input stage. *)
Definition InputStage_handleReset (s : InputStage) : InputStage :=
  {| inputText := inputText s; assignedPlayers := []; step := step1 |}.

(** The [onChange] of the text area. *)
Definition setInputText (text : string) (s : InputStage) : InputStage :=
  {| inputText := text;
     assignedPlayers := assignedPlayers s;
     step := step s |}.

(** The order of the comparator [(a, b) => a.number - b.number]. *)
Definition byNumber (p q : Player) : Prop := number p <= number q.

(** ** App.tsx *)

Inductive AppStage := INPUT | DRAW | FINISHED.

Record App := mkApp {
  stage : AppStage;
  players : list Player
}.

(** [useState] initial values. *)
Definition initialApp : App := {| stage := INPUT; players := [] |}.

Definition handleInputComplete (data : list Player) (a : App) : App :=
  {| stage := DRAW; players := data |}.

(** [handleReset] of the application; [confirmed] is the answer to
    [window.confirm]. *)
Definition App_handleReset (confirmed : bool) (a : App) : App :=
  if confirmed then {| stage := INPUT; players := [] |} else a.

(** The component the application renders, with that component's state. *)
Inductive Screen :=
| InputScreen (i : InputStage)
| DrawScreen (d : DrawStage)
| Blank.

Record UI := mkUI {
  app : App;
  screen : Screen
}.

Definition initialUI : UI :=
  {| app := initialApp; screen := InputScreen initialInput |}.

(** The render of [App]: a component that stays on screen keeps its state, a
    component that comes on screen starts from its initial state, the draw
    stage from the players of the application. *)
Definition render (a : App) (before : Screen) : UI :=
  {| app := a;
     screen :=
       match stage a, before with
       | INPUT, InputScreen i => InputScreen i
       | INPUT, _ => InputScreen initialInput
       | DRAW, DrawScreen d => DrawScreen d
       | DRAW, _ => DrawScreen (initialStage (players a))
       | FINISHED, _ => Blank
       end |}.

(** What the user and the timer can do.  A control acts only while it is on
    screen: the text area and [Assign Numbers] in step 1, [Reset] and
    [Start The Draw] in step 2, the draw controls and [Exit] in the draw
    stage.  A timer tick is allowed at any time of the draw stage, which
    covers the ticks of the armed interval. *)
Inductive UIEvent :=
| Typing (text : string)
| AssignNumbersClick (random : nat -> Random) (uuid : nat -> string)
| ReviewResetClick
| StartTheDrawClick
| DrawStageEvent (e : StageEvent)
| ExitClick (confirmed : bool).

Section Application.

Variable trim : string -> string.

Definition uiStep (e : UIEvent) (u : UI) : option UI :=
  match screen u, e with
  | InputScreen i, Typing text =>
      match step i with
      | step1 => Some {| app := app u;
                         screen := InputScreen (setInputText text i) |}
      | step2 => Some u
      end
  | InputScreen i, AssignNumbersClick random uuid =>
      match step i with
      | step1 =>
          match handleProcess trim random uuid i with
          | Some (i', _) => Some {| app := app u; screen := InputScreen i' |}
          | None => None
          end
      | step2 => Some u
      end
  | InputScreen i, ReviewResetClick =>
      match step i with
      | step1 => Some u
      | step2 => Some {| app := app u;
                         screen := InputScreen (InputStage_handleReset i) |}
      end
  | InputScreen i, StartTheDrawClick =>
      match step i with
      | step1 => Some u
      | step2 =>
          Some (render (handleInputComplete (assignedPlayers i) (app u))
                  (screen u))
      end
  | DrawScreen d, DrawStageEvent e' =>
      match stageStep (stageMatches (players (app u))) e' d with
      | Some d' => Some {| app := app u; screen := DrawScreen d' |}
      | None => None
      end
  | DrawScreen d, ExitClick confirmed =>
      Some (render (App_handleReset confirmed (app u)) (screen u))
  | _, _ => Some u
  end.

Fixpoint uiRun (es : list UIEvent) (u : UI) : option UI :=
  match es with
  | [] => Some u
  | e :: rest =>
      match uiStep e u with
      | Some u' => uiRun rest u'
      | None => None
      end
  end.

End Application.

(** The entrants the draw stage is meant for: at least two, numbered
    1, 2, ..., N in this order. *)
Definition validEntrants (ps : list Player) : Prop :=
  (2 <= length ps)%nat /\ map number ps = numbersUpTo (length ps).

(** The states of the draw stage that [initialPlayers] can lead to. *)
Definition drawReachable (initialPlayers : list Player) (d : DrawStage)
    : Prop :=
  exists es,
    stageRun (stageMatches initialPlayers) es (initialStage initialPlayers)
    = Some d.

(** What holds of the screens the application can show. *)
Definition uiInvariant (u : UI) : Prop :=
  match screen u with
  | InputScreen i =>
      stage (app u) = INPUT /\
      match step i with
      | step1 => assignedPlayers i = []
      | step2 => validEntrants (assignedPlayers i)
      end
  | DrawScreen d =>
      stage (app u) = DRAW /\
      validEntrants (players (app u)) /\
      drawReachable (players (app u)) d
  | Blank => False
  end.

(** [String.prototype.trim] restricted to the white space of ASCII, for the
    sample runs. *)
Definition isSpace (c : Ascii.ascii) : bool :=
  match Ascii.nat_of_ascii c with
  | 9%nat | 10%nat | 11%nat | 12%nat | 13%nat | 32%nat => true
  | _ => false
  end.

Fixpoint trimStart (s : string) : string :=
  match s with
  | EmptyString => EmptyString
  | String c rest => if isSpace c then trimStart rest else s
  end.

Fixpoint trimEnd (s : string) : string :=
  match s with
  | EmptyString => EmptyString
  | String c rest =>
      match trimEnd rest with
      | EmptyString => if isSpace c then EmptyString else String c EmptyString
      | kept => String c kept
      end
  end.

Definition asciiTrim (s : string) : string := trimEnd (trimStart s).

Definition sampleText : string :=
  String.concat (String newline EmptyString)
    ["Ann"; "  Bob "; ""; "Cy"]%string.

Definition sampleInput : InputStage :=
  {| inputText := sampleText; assignedPlayers := []; step := step1 |}.

Definition sampleUuid : nat -> string :=
  fun k => nth k ["u0"; "u1"; "u2"]%string "u"%string.

(** Random values that make the shuffle swap the last two numbers only. *)
Definition sampleShuffle : nat -> Random :=
  fun k => match k with O => mkRandom 1 1 | _ => mkRandom 1 0 end.

(** The timer ticks among the events of the draw stage. *)
Fixpoint ticksOf (es : list StageEvent) : list (Random * string) :=
  match es with
  | [] => []
  | Tick r uuid :: rest => (r, uuid) :: ticksOf rest
  | _ :: rest => ticksOf rest
  end.

(** The state of the draw itself: everything but the drawing flag. *)
Definition drawData (s : DrawStage)
    : list Player * list Fixture * option Player * option Z * list string :=
  (remainingPlayers s, fixtures s, currentHome s, lastDrawnNumber s,
   drawHistory s).

(** The fixtures, newest first, are byes followed by matches, and a bye
    exists only once the test of [drawPlayer] against the quota fails. *)
Definition byesAfterMatches (m : Q) (s : DrawStage) : Prop :=
  exists byes matches,
    fixtures s = byes ++ matches /\
    Forall (fun f => away f = None) byes /\
    Forall (fun f => away f <> None) matches /\
    (byes <> [] ->
     Qltb (inject_Z (Z.of_nat (matchesSoFar (fixtures s)))) m = false).

(** ** LotteryMachine.tsx: mounting and re-rendering *)

(** constants.ts *)
Definition BALL_RADIUS : Q := 24.

Definition BALL_COLORS : list string :=
  [ "#ef4444"; "#f97316"; "#f59e0b"; "#84cc16"; "#10b981"; "#06b6d4";
    "#3b82f6"; "#6366f1"; "#8b5cf6"; "#d946ef"; "#f43f5e" ]%string.

(** What the initialisation uses of matter-js: the world of a new engine,
    the bodies of the walls ([Bodies.rectangle] with the wall options) and of
    the balls ([Bodies.circle] with the ball options, of which the number
    behind the label and the fill style vary), and [World.add] of bodies and
    of the mouse constraint. *)
Class MatterSetup (num Body Composite : Type) := {
  Engine_create : Composite;
  Bodies_rectangle : num -> num -> num -> num -> Body;
  Bodies_circle : num -> num -> num -> Z -> string -> Body;
  World_add : Composite -> list Body -> Composite;
  World_addConstraint : Composite -> Composite
}.

(** [m.set(k, v)]: the value of an existing key is replaced in place, a new
    key goes last. *)
Fixpoint Map_set {V : Type} (k : Z) (v : V) (m : JSMap V) : JSMap V :=
  match m with
  | [] => [(k, v)]
  | e :: rest =>
      if fst e =? k then (k, v) :: rest else e :: Map_set k v rest
  end.

Definition Map_keys {V : Type} (m : JSMap V) : list Z := map fst m.

(** [Object.is] on the values of [drawnNumber]. *)
Definition sameNumber (a b : option Z) : bool :=
  match a, b with
  | Some x, Some y => x =? y
  | None, None => true
  | _, _ => false
  end.

Section LotteryMachineLifecycle.

Context {num Body Composite : Type}.
Context `{JSNumber num} `{MatterJS num Body Composite}
        `{MatterSetup num Body Composite}.

Local Notation "a + b" := (num_add a b) : num_scope.
Local Notation "a - b" := (num_sub a b) : num_scope.
Local Notation "a * b" := (num_mul a b) : num_scope.
Local Notation "a / b" := (num_div a b) : num_scope.
Local Open Scope num_scope.

(** The refs of a component that has not run any effect yet. *)
Definition initialMachine (isDrawing : bool) : Machine num Body Composite :=
  {| engineRef := None; bodiesRef := []; isDrawingRef := isDrawing |}.

(** [players.forEach((p, index) => ...)] of the initialisation, from [index]
    on, with [k] calls of [Math.random()] made: the balls pushed and the map
    filled so far. *)
Fixpoint createBalls (width height : num) (random : nat -> num)
    (players : list Player) (index k : nat) (balls : list Body)
    (bodies : JSMap Body) : list Body * JSMap Body * nat :=
  match players with
  | [] => (balls, bodies, k)
  | p :: rest =>
      let x := random k * (width - lit 100) + lit 50 in
      let y := random (S k) * (height / lit 2) + lit 50 in
      let ball :=
        Bodies_circle x y (lit BALL_RADIUS) (number p)
          (nth (index mod length BALL_COLORS) BALL_COLORS ""%string) in
      createBalls width height random rest (S index) (S (S k))
        (balls ++ [ball]) (Map_set (number p) ball bodies)
  end.

(** The initialisation effect, as far as the refs go ([canvas] tells whether
    [canvasRef.current] is set).  The runner and the rendering loop it
    starts touch neither the engine ref nor the map. *)
Definition initEffect (canvas : bool) (width height : num)
    (random : nat -> num) (players : list Player)
    (s : Machine num Body Composite) : Machine num Body Composite :=
  if negb canvas then s
  else
    let ground :=
      Bodies_rectangle (width / lit 2) (height + lit 30) width (lit 60) in
    let leftWall :=
      Bodies_rectangle (lit (-30)) (height / lit 2) (lit 60) height in
    let rightWall :=
      Bodies_rectangle (width + lit 30) (height / lit 2) (lit 60) height in
    let ceiling :=
      Bodies_rectangle (width / lit 2) (lit (-30)) width (lit 60) in
    let world0 :=
      World_add Engine_create [ground; leftWall; rightWall; ceiling] in
    let '(balls, bodies, _) :=
      createBalls width height random players 0 0 [] (bodiesRef s) in
    let world1 := World_add world0 balls in
    {| engineRef :=
         Some {| world := World_addConstraint world1; gravity_y := lit 1 |};
       bodiesRef := bodies;
       isDrawingRef := isDrawingRef s |}.

(** Mounting: the three effects run in the order they are declared. *)
Definition mountMachine (canvas : bool) (width height : num)
    (random : nat -> num) (players : list Player)
    (drawnNumber : option Z) (isDrawing : bool)
    : Machine num Body Composite :=
  ejectionEffect drawnNumber
    (initEffect canvas width height random players
       (gravityEffect isDrawing (initialMachine isDrawing))).

(** A re-render of the draw stage: the effects whose dependency changed
    run, in the order they are declared. *)
Definition updateMachine (before after : DrawStage)
    (s : Machine num Body Composite) : Machine num Body Composite :=
  let s1 :=
    if Bool.eqb (isDrawing before) (isDrawing after) then s
    else gravityEffect (isDrawing after) s in
  if sameNumber (lastDrawnNumber before) (lastDrawnNumber after) then s1
  else ejectionEffect (lastDrawnNumber after) s1.

(** The draw stage together with the lottery machine it renders. *)
Definition mountDraw (canvas : bool) (width height : num)
    (random : nat -> num) (initialPlayers : list Player)
    : DrawStage * Machine num Body Composite :=
  let d := initialStage initialPlayers in
  (d, mountMachine canvas width height random initialPlayers
        (lastDrawnNumber d) (isDrawing d)).

Definition stepWithMachine (m : Q) (e : StageEvent)
    (dm : DrawStage * Machine num Body Composite)
    : option (DrawStage * Machine num Body Composite) :=
  match stageStep m e (fst dm) with
  | Some d' => Some (d', updateMachine (fst dm) d' (snd dm))
  | None => None
  end.

Fixpoint runWithMachine (m : Q) (es : list StageEvent)
    (dm : DrawStage * Machine num Body Composite)
    : option (DrawStage * Machine num Body Composite) :=
  match es with
  | [] => Some dm
  | e :: rest =>
      match stepWithMachine m e dm with
      | Some dm' => runWithMachine m rest dm'
      | None => None
      end
  end.

(** The machine follows the draw stage: one ball per entrant of the pool,
    under the entrant's number and in the order of the pool; the flag of the
    handler is the drawing flag; the engine exists and its gravity is the
    one of the regime. *)
Definition inStep (dm : DrawStage * Machine num Body Composite) : Prop :=
  Map_keys (bodiesRef (snd dm)) = map number (remainingPlayers (fst dm)) /\
  isDrawingRef (snd dm) = isDrawing (fst dm) /\
  (exists engine,
     engineRef (snd dm) = Some engine /\
     gravity_y engine = if isDrawing (fst dm) then lit 0 else lit 1).

(** The invariant of the draw stage and its machine, relative to the map
    [mounted] filled at mount time. *)
Definition following (mounted : JSMap Body)
    (dm : DrawStage * Machine num Body Composite) : Prop :=
  inStep dm /\
  NoDup (map number (remainingPlayers (fst dm))) /\
  (forall n, lastDrawnNumber (fst dm) = Some n ->
     ~ In n (map number (remainingPlayers (fst dm)))) /\
  incl (bodiesRef (snd dm)) mounted.


End LotteryMachineLifecycle.

#[export] Instance Ball_MatterSetup : MatterSetup Q Ball (list Ball) := {|
  Engine_create := [];
  Bodies_rectangle := fun x y w h => mkBall 0 (x, y) 0;
  Bodies_circle := fun x y r n fill => mkBall n (x, y) 72;
  World_add := fun w bodies => w ++ bodies;
  World_addConstraint := fun w => w
|}.

(** ** DrawStage.tsx: what the header shows *)

Definition statusText (s : DrawStage) : string :=
  if isDrawing s then "DRAWING IN PROGRESS"
  else if (length (remainingPlayers s) =? 0)%nat then "DRAW COMPLETED"
  else "READY".

Definition buttonLabel (s : DrawStage) : string :=
  if isDrawing s then "Pause"
  else if (length (remainingPlayers s) =? 0)%nat then "Finished"
  else "Start Draw".

(** [disabled={remainingPlayers.length === 0}] *)
Definition buttonDisabled (s : DrawStage) : bool :=
  (length (remainingPlayers s) =? 0)%nat.

(** A session: type the sample text, assign numbers, start the draw, start
    drawing, and let the timer fire once. *)
Definition sampleSession : list UIEvent :=
  [ Typing sampleText;
    AssignNumbersClick sampleShuffle sampleUuid;
    StartTheDrawClick;
    DrawStageEvent ToggleClick;
    DrawStageEvent (Tick (mkRandom 0 0) "f1") ].

(** * Properties *)

(** ** Bracket planner *)

Lemma nextPowerOf2_double (N : Z) :
  2 <= N -> nextPowerOf2 N = 2 * 2 ^ (Z.log2_up N - 1).
Proof.
  intros HN. unfold nextPowerOf2.
  assert (0 < Z.log2_up N) by (apply Z.log2_up_pos; lia).
  rewrite <- Z.pow_succ_r by lia. f_equal. lia.
Qed.

Lemma nextPowerOf2_bounds (N : Z) :
  2 <= N -> 2 ^ (Z.log2_up N - 1) < N <= nextPowerOf2 N.
Proof.
  intros HN. unfold nextPowerOf2.
  replace (Z.log2_up N - 1) with (Z.pred (Z.log2_up N)) by lia.
  apply Z.log2_up_spec. lia.
Qed.

Lemma matchesInt_bounds (N : Z) :
  2 <= N -> 1 <= matchesInt N /\ 2 * matchesInt N <= N.
Proof.
  intros HN. unfold matchesInt.
  pose proof (nextPowerOf2_bounds N HN) as [Hlo Hhi].
  rewrite (nextPowerOf2_double N HN) in Hhi. lia.
Qed.

Lemma matchesInt_byes (N : Z) :
  2 <= N -> 2 * matchesInt N + byesNeeded N = N.
Proof.
  intros HN. unfold matchesInt, byesNeeded.
  rewrite (nextPowerOf2_double N HN). lia.
Qed.

Lemma matchesNeeded_int (N : Z) :
  2 <= N -> matchesNeeded N == inject_Z (matchesInt N).
Proof.
  intros HN. unfold matchesNeeded.
  destruct (N <? 2) eqn:E; [apply Z.ltb_lt in E; lia|].
  pose proof (matchesInt_byes N HN) as Hb.
  replace (N - byesNeeded N) with (matchesInt N * 2) by lia.
  rewrite inject_Z_mult. unfold Qdiv. rewrite <- Qmult_assoc.
  change (inject_Z 2) with 2%Q.
  rewrite Qmult_inv_r by discriminate. apply Qmult_1_r.
Qed.

Lemma matchesNeeded_small (N : Z) : N < 2 -> matchesNeeded N = 0%Q.
Proof.
  intros HN. unfold matchesNeeded.
  destruct (N <? 2) eqn:E; [reflexivity|apply Z.ltb_ge in E; lia].
Qed.

(** C3.  For [N < 2] the planner returns 0.  For [N >= 2] it returns
    [(N - (nextPow2 N - N)) / 2], where [nextPow2 N] is the power of two
    [2^e] whose exponent is the ceiling of the binary logarithm of [N]
    ([2^(e-1) < N <= 2^e]); that quotient is a non-negative integer, and
    twice it plus the byes is [N]. *)
Theorem planner_matchesNeeded (N : Z) :
  (N < 2 -> matchesNeeded N = 0%Q) /\
  (2 <= N ->
     matchesNeeded N == inject_Z (N - (nextPowerOf2 N - N)) / 2 /\
     (exists e : Z,
        nextPowerOf2 N = 2 ^ e /\ 2 ^ (e - 1) < N <= 2 ^ e) /\
     (exists k : Z, 0 <= k /\ matchesNeeded N == inject_Z k) /\
     2 * matchesNeeded N + inject_Z (byesNeeded N) == inject_Z N).
Proof.
  split; [apply matchesNeeded_small|].
  intros HN. repeat split.
  - unfold matchesNeeded, byesNeeded.
    destruct (N <? 2) eqn:E; [apply Z.ltb_lt in E; lia|reflexivity].
  - exists (Z.log2_up N). pose proof (nextPowerOf2_bounds N HN).
    unfold nextPowerOf2 in *. repeat split; lia.
  - exists (matchesInt N). split.
    + pose proof (matchesInt_bounds N HN). lia.
    + apply matchesNeeded_int, HN.
  - rewrite (matchesNeeded_int N HN).
    change 2%Q with (inject_Z 2).
    rewrite <- inject_Z_mult, <- inject_Z_plus.
    rewrite (matchesInt_byes N HN). reflexivity.
Qed.

Lemma planner_matchesNeeded_witness :
  matchesNeeded 1 = 0%Q /\
  (matchesNeeded 5 == inject_Z (5 - (nextPowerOf2 5 - 5)) / 2 /\
   (exists e : Z, nextPowerOf2 5 = 2 ^ e /\ 2 ^ (e - 1) < 5 <= 2 ^ e) /\
   (exists k : Z, 0 <= k /\ matchesNeeded 5 == inject_Z k) /\
   2 * matchesNeeded 5 + inject_Z (byesNeeded 5) == inject_Z 5).
Proof.
  split.
  - apply (proj1 (planner_matchesNeeded 1)). lia.
  - apply (proj2 (planner_matchesNeeded 5)). lia.
Defined.

(** The worked values of the planner. *)
Example planner_examples :
  Qred (matchesNeeded 5) = 1%Q /\ byesNeeded 5 = 3 /\
  Qred (matchesNeeded 8) = 4%Q /\ byesNeeded 8 = 0 /\
  Qred (matchesNeeded 2) = 1%Q /\ byesNeeded 2 = 0 /\
  matchesNeeded 1 = 0%Q.
Proof. repeat split. Qed.

(** ** The random index *)

Lemma randomIndexOf_lt (r : Random) (len : nat) :
  (0 < len)%nat -> (randomIndexOf r len < len)%nat.
Proof.
  intros Hlen. unfold randomIndexOf, denom.
  apply Nat.Div0.div_lt_upper_bound. nia.
Qed.


Lemma Random_value_unit (r : Random) :
  (0 <= Random_value r)%Q /\ (Random_value r < 1)%Q.
Proof.
  unfold Random_value, denom, Qle, Qlt. simpl.
  assert (E : Z.pos (Pos.of_nat (numer r + gap r + 1))
              = Z.of_nat (numer r + gap r + 1)).
  { rewrite <- positive_nat_Z. rewrite Nat2Pos.id by lia. reflexivity. }
  split; [lia|]. rewrite E. lia.
Qed.

(** ** Array operations *)

Lemma splice1_split {A : Type} (l : list A) (i : nat) (x : A) :
  nth_error l i = Some x ->
  l = firstn i l ++ x :: skipn (S i) l.
Proof.
  revert i. induction l as [|a l IH]; intros [|i] Hx; simpl in *;
    try discriminate.
  - congruence.
  - f_equal. apply IH, Hx.
Qed.

Lemma splice1_perm {A : Type} (l : list A) (i : nat) (x : A) :
  nth_error l i = Some x -> Permutation l (x :: splice1 i l).
Proof.
  intros Hx. rewrite (splice1_split l i x Hx) at 1.
  unfold splice1. symmetry. apply Permutation_middle.
Qed.

Lemma splice1_length {A : Type} (l : list A) (i : nat) (x : A) :
  nth_error l i = Some x -> S (length (splice1 i l)) = length l.
Proof.
  intros Hx. pose proof (Permutation_length (splice1_perm l i x Hx)) as E.
  simpl in E. congruence.
Qed.

(** ** One draw *)

Lemma Qltb_lt (a b : Q) : Qltb a b = true <-> (a < b)%Q.
Proof.
  unfold Qltb. rewrite negb_true_iff. split.
  - intros E. apply Qnot_le_lt. intros Hle.
    apply Qle_bool_iff in Hle. congruence.
  - intros Hlt. destruct (Qle_bool b a) eqn:E; [|reflexivity].
    apply Qle_bool_iff in E. exfalso. exact (Qlt_not_le _ _ Hlt E).
Qed.

Lemma Qltb_ge (a b : Q) : Qltb a b = false <-> (b <= a)%Q.
Proof.
  unfold Qltb. rewrite negb_false_iff. apply Qle_bool_iff.
Qed.

(** The test of [drawPlayer] against an integral quota. *)
Lemma quota_test (k : nat) (m : Q) (M : Z) :
  m == inject_Z M ->
  Qltb (inject_Z (Z.of_nat k)) m = (Z.of_nat k <? M).
Proof.
  intros Hm. destruct (Z.of_nat k <? M) eqn:E.
  - apply Qltb_lt. rewrite Hm. rewrite <- Zlt_Qlt. apply Z.ltb_lt, E.
  - apply Qltb_ge. rewrite Hm. rewrite <- Zle_Qle. apply Z.ltb_ge, E.
Qed.

(** [drawPlayer] never faults, and its result is one of the four outcomes. *)
Lemma drawPlayer_Drawn (m : Q) (r : Random) (uuid : string) (s : DrawStage) :
  exists s', drawPlayer m r uuid s = Some s' /\ Drawn m uuid s s'.
Proof.
  unfold drawPlayer.
  destruct (remainingPlayers s) as [|p ps] eqn:Hrem.
  - eexists. split; [reflexivity|].
    rewrite <- Hrem. apply Drawn_finished, Hrem.
  - rewrite <- Hrem.
    assert (Hlt : (randomIndexOf r (length (remainingPlayers s))
                   < length (remainingPlayers s))%nat).
    { apply randomIndexOf_lt. rewrite Hrem. simpl. lia. }
    destruct (nth_error (remainingPlayers s)
                (randomIndexOf r (length (remainingPlayers s)))) as [drawn|]
      eqn:Hnth.
    2:{ apply nth_error_None in Hnth. lia. }
    cbv zeta.
    destruct (Qltb _ m) eqn:Hq.
    + destruct (currentHome s) as [waiting|] eqn:Hhome.
      * eexists. split; [reflexivity|].
        eapply Drawn_match; eauto.
      * eexists. split; [reflexivity|].
        eapply Drawn_home; eauto.
    + eexists. split; [reflexivity|]. eapply Drawn_bye; eauto.
Qed.


(** ** Runs of draws *)

(** A property kept by every outcome is kept by every run, and no run
    faults. *)
Lemma drawAll_invariant (m : Q) (P : DrawStage -> Prop) :
  (forall uuid s s', P s -> Drawn m uuid s s' -> P s') ->
  forall ticks s, P s -> exists s', drawAll m ticks s = Some s' /\ P s'.
Proof.
  intros Hstep ticks. induction ticks as [|[r uuid] ticks IH]; intros s Hs.
  - exists s. split; [reflexivity|exact Hs].
  - simpl. destruct (drawPlayer_Drawn m r uuid s) as (s1 & E & Hd).
    rewrite E. apply IH. eapply Hstep; eauto.
Qed.

Lemma Drawn_pool_length (m : Q) (uuid : string) (s s' : DrawStage) :
  Drawn m uuid s s' ->
  length (remainingPlayers s') = pred (length (remainingPlayers s)).
Proof.
  intros Hd. destruct Hd as [Hrem|i d Hn _ _|i d w Hn _ _|i d Hn _]; simpl;
    try (pose proof (splice1_length _ _ _ Hn); lia).
  rewrite Hrem. reflexivity.
Qed.

Lemma drawAll_pool_length (m : Q) (ticks : list (Random * string))
    (s s' : DrawStage) :
  drawAll m ticks s = Some s' ->
  length (remainingPlayers s')
  = (length (remainingPlayers s) - length ticks)%nat.
Proof.
  revert s. induction ticks as [|[r uuid] ticks IH]; intros s Hrun.
  - simpl in *. injection Hrun as <-. lia.
  - simpl in Hrun. destruct (drawPlayer_Drawn m r uuid s) as (s1 & E & Hd).
    rewrite E in Hrun. rewrite (IH _ Hrun).
    rewrite (Drawn_pool_length _ _ _ _ Hd). simpl. lia.
Qed.

(** ** Conservation of entrants *)

Lemma Drawn_accounted (m : Q) (uuid : string) (s s' : DrawStage) :
  Drawn m uuid s s' -> accounted s' = accounted s.
Proof.
  intros Hd.
  destruct Hd as [Hrem|i d Hn _ Hh|i d w Hn _ Hh|i d Hn _];
    unfold accounted, matchesSoFar, byesSoFar; simpl;
    try rewrite Hh; try (pose proof (splice1_length _ _ _ Hn)); lia.
Qed.

(** C2.  For an entrant list of size [N] and any sequence of calls of
    [drawPlayer], whatever the random values, the run does not fault and
    after every call the pool size, plus one for a pending home entrant, plus
    twice the fixtures with an away entrant, plus the fixtures without one,
    is [N].  Uniqueness of the entry numbers is not needed. *)
Theorem entrants_conserved (initialPlayers : list Player)
    (ticks : list (Random * string)) :
  exists s,
    drawAll (stageMatches initialPlayers) ticks (initialStage initialPlayers)
    = Some s /\
    (length (remainingPlayers s)
     + (match currentHome s with Some _ => 1 | None => 0 end)
     + 2 * length (filter (fun f => match away f with
                                    | Some _ => true | None => false end)
                     (fixtures s))
     + length (filter (fun f => match away f with
                                | Some _ => false | None => true end)
                 (fixtures s)))%nat
    = length initialPlayers.
Proof.
  destruct (drawAll_invariant (stageMatches initialPlayers)
              (fun s => accounted s = length initialPlayers))
    with (ticks := ticks) (s := initialStage initialPlayers)
    as (s & Hrun & Hacc).
  - intros uuid s s' Hs Hd. rewrite (Drawn_accounted _ _ _ _ Hd). exact Hs.
  - unfold accounted, matchesSoFar, byesSoFar. simpl. lia.
  - exists s. split; [exact Hrun|].
    rewrite <- Hacc. unfold accounted, matchesSoFar, byesSoFar.
    f_equal. f_equal. apply filter_ext. intros f. unfold isBye, isMatch.
    destruct (away f); reflexivity.
Qed.

(** ** The bracket invariant *)

Ltac counts := unfold accounted, matchesSoFar, byesSoFar in *; simpl in *.

Lemma Drawn_BracketInv (m : Q) (N M : nat) (uuid : string)
    (s s' : DrawStage) :
  m == inject_Z (Z.of_nat M) ->
  BracketInv N M s -> Drawn m uuid s s' -> BracketInv N M s'.
Proof.
  intros Hm [Hacc Hq Hbye Hhome] Hd.
  pose proof (Drawn_accounted _ _ _ _ Hd) as Hacc'.
  pose proof (quota_test (matchesSoFar (fixtures s)) m _ Hm) as Ht.
  destruct Hd as [Hrem|i d Hn Hlt Hh|i d w Hn Hlt Hh|i d Hn Hge].
  - constructor; simpl; auto.
  - rewrite Hlt in Ht. symmetry in Ht. apply Z.ltb_lt in Ht.
    constructor; simpl; auto; try congruence. intros E. lia.
  - rewrite Hlt in Ht. symmetry in Ht. apply Z.ltb_lt in Ht.
    constructor; try congruence; counts; try lia.
    intros _. reflexivity.
  - rewrite Hge in Ht. symmetry in Ht. apply Z.ltb_ge in Ht.
    constructor; try congruence; counts; try lia.
    intros E. apply Hhome. lia.
Qed.

Lemma initialStage_BracketInv (initialPlayers : list Player) (M : nat) :
  BracketInv (length initialPlayers) M (initialStage initialPlayers).
Proof.
  constructor; counts; try lia; reflexivity.
Qed.

Lemma stageMatches_nat (initialPlayers : list Player) :
  2 <= totalPlayers initialPlayers ->
  stageMatches initialPlayers
  == inject_Z (Z.of_nat (Z.to_nat (matchesInt (totalPlayers initialPlayers)))).
Proof.
  intros HN. unfold stageMatches. rewrite (matchesNeeded_int _ HN).
  pose proof (matchesInt_bounds _ HN). rewrite Z2Nat.id by lia. reflexivity.
Qed.

(** Every run of a draw stage mounted on at least two entrants keeps the
    bracket invariant for the planner's quota. *)
Lemma stage_BracketInv (initialPlayers : list Player)
    (ticks : list (Random * string)) :
  2 <= totalPlayers initialPlayers ->
  exists s,
    drawAll (stageMatches initialPlayers) ticks (initialStage initialPlayers)
    = Some s /\
    BracketInv (length initialPlayers)
      (Z.to_nat (matchesInt (totalPlayers initialPlayers))) s.
Proof.
  intros HN. apply drawAll_invariant.
  - intros uuid s s' Hs Hd.
    eapply Drawn_BracketInv; eauto using stageMatches_nat.
  - apply initialStage_BracketInv.
Qed.

Lemma no_byes_all_matches (fs : list Fixture) :
  byesSoFar fs = 0%nat -> forall f, In f fs -> away f <> None.
Proof.
  unfold byesSoFar. intros Hz f Hf Haway.
  assert (Hin : In f (filter isBye fs)).
  { apply filter_In. split; [exact Hf|].
    unfold isBye, isMatch. rewrite Haway. reflexivity. }
  destruct (filter isBye fs); [contradiction|discriminate].
Qed.

Lemma powerOfTwo_planner (N : Z) :
  powerOfTwo N -> 2 <= N /\ byesNeeded N = 0 /\ 2 * matchesInt N = N.
Proof.
  intros (e & He & ->).
  assert (H2 : 2 <= 2 ^ e).
  { change 2 with (2 ^ 1) at 1. apply Z.pow_le_mono_r; lia. }
  pose proof (matchesInt_byes _ H2) as Hb.
  assert (Hz : byesNeeded (2 ^ e) = 0).
  { unfold byesNeeded, nextPowerOf2. rewrite Z.log2_up_pow2 by lia. lia. }
  repeat split; lia.
Qed.

(** C4.  On at least two entrants, drawing until the pool is empty (the pool
    holds [N - k] entrants after [k] calls, so it empties with the [N]-th
    call and stays empty) leaves exactly [matchesNeeded] fixtures with an
    away entrant, exactly [nextPow2 N - N] fixtures without one, and no
    pending home entrant.  Uniqueness of the entry numbers is not needed. *)
Theorem full_draw (initialPlayers : list Player)
    (ticks : list (Random * string)) :
  2 <= totalPlayers initialPlayers ->
  exists s,
    drawAll (stageMatches initialPlayers) ticks (initialStage initialPlayers)
    = Some s /\
    length (remainingPlayers s)
    = (length initialPlayers - length ticks)%nat /\
    (remainingPlayers s = [] ->
     inject_Z (Z.of_nat (matchesSoFar (fixtures s)))
     == matchesNeeded (totalPlayers initialPlayers) /\
     Z.of_nat (byesSoFar (fixtures s))
     = nextPowerOf2 (totalPlayers initialPlayers)
       - totalPlayers initialPlayers /\
     currentHome s = None).
Proof.
  intros HN.
  destruct (stage_BracketInv initialPlayers ticks HN)
    as (s & Hrun & [Hacc Hq Hbye Hhome]).
  exists s. split; [exact Hrun|].
  split; [exact (drawAll_pool_length _ _ _ _ Hrun)|].
  intros Hempty.
  pose proof (matchesInt_bounds _ HN) as [H1 H2].
  pose proof (matchesInt_byes _ HN) as Hb.
  unfold byesNeeded in Hb. unfold totalPlayers in *.
  set (M := matchesInt (Z.of_nat (length initialPlayers))) in *.
  unfold accounted in Hacc. rewrite Hempty in Hacc. simpl in Hacc.
  assert (Hm : matchesSoFar (fixtures s) = Z.to_nat M).
  { destruct (Nat.eq_dec (matchesSoFar (fixtures s)) (Z.to_nat M))
      as [E|E]; [exact E|].
    assert (Hlt : (matchesSoFar (fixtures s) < Z.to_nat M)%nat) by lia.
    specialize (Hbye Hlt). destruct (currentHome s); lia. }
  specialize (Hhome Hm). rewrite Hhome in Hacc.
  repeat split.
  - rewrite (matchesNeeded_int _ HN). fold M. rewrite Hm.
    rewrite Z2Nat.id by lia. reflexivity.
  - lia.
  - exact Hhome.
Qed.

(** C7.  When the number of entrants is a power of two (at least 2), no run
    of draws ever holds a fixture without an away entrant, and while the pool
    is non-empty the count of matches is strictly below [matchesNeeded], so
    the bye branch cannot be taken. *)
Theorem power_of_two_no_bye (initialPlayers : list Player)
    (ticks : list (Random * string)) :
  powerOfTwo (totalPlayers initialPlayers) ->
  exists s,
    drawAll (stageMatches initialPlayers) ticks (initialStage initialPlayers)
    = Some s /\
    (forall f, In f (fixtures s) -> away f <> None) /\
    (remainingPlayers s <> [] ->
     (inject_Z (Z.of_nat (matchesSoFar (fixtures s)))
      < stageMatches initialPlayers)%Q).
Proof.
  intros Hpow.
  destruct (powerOfTwo_planner _ Hpow) as (HN & Hz & Hhalf).
  destruct (stage_BracketInv initialPlayers ticks HN)
    as (s & Hrun & [Hacc Hq Hbye Hhome]).
  exists s. split; [exact Hrun|].
  pose proof (matchesInt_bounds _ HN) as [H1 H2].
  unfold totalPlayers in *.
  set (M := matchesInt (Z.of_nat (length initialPlayers))) in *.
  unfold accounted in Hacc.
  assert (Hcases : (matchesSoFar (fixtures s) < Z.to_nat M)%nat \/
                   (matchesSoFar (fixtures s) = Z.to_nat M /\
                    remainingPlayers s = [] /\
                    byesSoFar (fixtures s) = 0%nat)).
  { destruct (Nat.eq_dec (matchesSoFar (fixtures s)) (Z.to_nat M))
      as [E|E]; [right|left; lia].
    rewrite (Hhome E) in Hacc.
    destruct (remainingPlayers s); simpl in Hacc; repeat split; lia. }
  split.
  - apply no_byes_all_matches.
    destruct Hcases as [Hlt|(_ & _ & Hb)]; [apply Hbye, Hlt|exact Hb].
  - intros Hne. destruct Hcases as [Hlt|(_ & He & _)]; [|contradiction].
    rewrite (stageMatches_nat initialPlayers HN). unfold totalPlayers. fold M.
    rewrite <- Zlt_Qlt. lia.
Qed.

(** ** Entry numbers are neither lost nor duplicated *)

Lemma NoDup_app_disjoint {A : Type} (l1 l2 : list A) (a : A) :
  NoDup (l1 ++ l2) -> In a l1 -> ~ In a l2.
Proof.
  induction l1 as [|x l1 IH]; simpl; intros Hnd Hin Hin2; [contradiction|].
  inversion Hnd as [|? ? Hx Hnd']; subst.
  destruct Hin as [->|Hin].
  - apply Hx. apply in_or_app. right. exact Hin2.
  - exact (IH Hnd' Hin Hin2).
Qed.

Lemma Drawn_slotNumbers (m : Q) (uuid : string) (s s' : DrawStage) :
  Drawn m uuid s s' -> Permutation (slotNumbers s) (slotNumbers s').
Proof.
  intros Hd.
  destruct Hd as [Hrem|i d Hn _ Hh|i d w Hn _ Hh|i d Hn _];
    unfold slotNumbers; simpl; try reflexivity;
    pose proof (Permutation_map number (splice1_perm _ _ _ Hn)) as Hp;
    simpl in Hp; rewrite Hp; try rewrite Hh; simpl.
  - apply Permutation_middle.
  - etransitivity; [apply Permutation_middle|].
    apply Permutation_app_head, perm_swap.
  - rewrite app_comm_cons. rewrite !app_assoc. apply Permutation_middle.
Qed.

(** C6.  From entrants with unique entry numbers, after any sequence of
    draws no entry number occupies two fixture slots (home or away, of the
    same or of different fixtures), and the number of an entrant still in the
    pool occupies no fixture slot and is not the pending home entrant's; nor
    does the pending home entrant's number occupy a fixture slot. *)
Theorem entry_numbers_distinct (initialPlayers : list Player)
    (ticks : list (Random * string)) :
  NoDup (map number initialPlayers) ->
  exists s,
    drawAll (stageMatches initialPlayers) ticks (initialStage initialPlayers)
    = Some s /\
    NoDup (flat_map fixtureNumbers (fixtures s)) /\
    NoDup (map number (remainingPlayers s)) /\
    (forall p, In p (remainingPlayers s) ->
       ~ In (number p) (flat_map fixtureNumbers (fixtures s)) /\
       ~ In (number p) (pendingNumbers (currentHome s))) /\
    (forall h, currentHome s = Some h ->
       ~ In (number h) (flat_map fixtureNumbers (fixtures s))).
Proof.
  intros Hnd.
  destruct (drawAll_invariant (stageMatches initialPlayers)
              (fun s => NoDup (slotNumbers s)))
    with (ticks := ticks) (s := initialStage initialPlayers)
    as (s & Hrun & Hs).
  - intros uuid s s' Hs Hd.
    exact (Permutation_NoDup (Drawn_slotNumbers _ _ _ _ Hd) Hs).
  - unfold slotNumbers. simpl. rewrite app_nil_r. exact Hnd.
  - exists s. split; [exact Hrun|]. unfold slotNumbers in Hs.
    pose proof (NoDup_app_remove_l _ _ Hs) as Hrest.
    repeat split.
    + exact (NoDup_app_remove_l _ _ Hrest).
    + exact (NoDup_app_remove_r _ _ Hs).
    + intros Hin. apply (NoDup_app_disjoint _ _ (number p) Hs).
      * apply in_map, H.
      * apply in_or_app. right. exact Hin.
    + intros Hin. apply (NoDup_app_disjoint _ _ (number p) Hs).
      * apply in_map, H.
      * apply in_or_app. left. exact Hin.
    + intros h Hh. rewrite Hh in Hrest. simpl in Hrest.
      inversion Hrest; assumption.
Qed.

(** ** The empty pool *)

(** C5.  On an empty pool a call of [drawPlayer] does not fault and changes
    nothing of the draw state (pool, fixtures, pending home, last drawn
    number, event log); it clears the drawing flag, after which the pacing
    effect arms no interval. *)
Theorem drawPlayer_empty_pool (m : Q) (r : Random) (uuid : string)
    (s : DrawStage) :
  remainingPlayers s = [] ->
  exists s',
    drawPlayer m r uuid s = Some s' /\
    remainingPlayers s' = remainingPlayers s /\
    fixtures s' = fixtures s /\
    currentHome s' = currentHome s /\
    lastDrawnNumber s' = lastDrawnNumber s /\
    drawHistory s' = drawHistory s /\
    isDrawing s' = false /\
    pacingEffect s' = (None, s').
Proof.
  intros Hempty. unfold drawPlayer. rewrite Hempty.
  eexists. split; [reflexivity|]. simpl.
  repeat split; symmetry; exact Hempty.
Qed.

Lemma pool_stays_empty (m : Q) (e : StageEvent) (s : DrawStage) :
  remainingPlayers s = [] ->
  exists s',
    stageStep m e s = Some s' /\
    remainingPlayers s' = [] /\
    (isDrawing s' = true -> isDrawing s = true).
Proof.
  intros Hempty. destruct e as [r uuid| |]; simpl.
  - unfold drawPlayer. rewrite Hempty. eexists. split; [reflexivity|].
    simpl. split; [reflexivity|discriminate].
  - unfold pacingEffect. rewrite Hempty. simpl.
    rewrite andb_false_r. simpl.
    eexists. split; [reflexivity|]. simpl. split; [reflexivity|discriminate].
  - unfold toggleDraw. rewrite Hempty. simpl.
    exists s. repeat split; auto.
Qed.

(** C10.  From a state whose pool is empty, whatever happens next (timer
    ticks, runs of the pacing effect, clicks on the start/pause button), the
    pool stays empty and the drawing flag is true afterwards only if it was
    true all along: it never turns from false to true.  On such a state
    [toggleDraw] changes nothing, and the pacing effect and [drawPlayer] both
    leave the flag false. *)
Theorem finished_draw_stays_stopped (m : Q) (es : list StageEvent)
    (s : DrawStage) :
  remainingPlayers s = [] ->
  (exists s',
     stageRun m es s = Some s' /\
     remainingPlayers s' = [] /\
     (isDrawing s' = true -> isDrawing s = true) /\
     (isDrawing s' = true -> Forall (eq ToggleClick) es)) /\
  toggleDraw s = s /\
  pacingEffect s = (None, setIsDrawing false s) /\
  (forall r uuid, drawPlayer m r uuid s = Some (setIsDrawing false s)).
Proof.
  intros Hempty. split.
  - revert s Hempty. induction es as [|e es IH]; intros s Hempty.
    + exists s. repeat split; auto.
    + simpl. destruct (pool_stays_empty m e s Hempty) as (s1 & E & H1 & Hf).
      rewrite E. destruct (IH s1 H1) as (s' & Hrun & H' & Hf' & Hall).
      exists s'. repeat split; auto.
      intros Ht. constructor; [|auto].
      specialize (Hf' Ht).
      destruct e as [r uuid| |]; simpl in E; [| |reflexivity]; exfalso.
      * unfold drawPlayer in E. rewrite Hempty in E.
        injection E as <-. discriminate.
      * unfold pacingEffect in E. rewrite Hempty in E. simpl in E.
        rewrite andb_false_r in E. simpl in E.
        injection E as <-. discriminate.
  - repeat split.
    + unfold toggleDraw. rewrite Hempty. reflexivity.
    + destruct s as [rem fs h l d hist]. simpl in Hempty. subst rem.
      unfold pacingEffect. simpl. rewrite andb_false_r. reflexivity.
    + intros r uuid. destruct s as [rem fs h l d hist].
      simpl in Hempty. subst rem. reflexivity.
Qed.

(** ** The lottery machine *)

Lemma Map_get_delete {V : Type} (k : Z) (m : JSMap V) :
  Map_get k (Map_delete k m) = None.
Proof.
  unfold Map_get, Map_delete. induction m as [|[k0 v] m IH]; simpl.
  - reflexivity.
  - destruct (k0 =? k) eqn:E; simpl; [exact IH|]. rewrite E. exact IH.
Qed.

Lemma Map_get_delete_other {V : Type} (k k' : Z) (m : JSMap V) :
  k' <> k -> Map_get k' (Map_delete k m) = Map_get k' m.
Proof.
  intros Hne. unfold Map_get, Map_delete.
  induction m as [|[k0 v] m IH]; simpl; [reflexivity|].
  destruct (k0 =? k) eqn:E; simpl.
  - apply Z.eqb_eq in E. subst k0.
    destruct (k =? k') eqn:E'; [apply Z.eqb_eq in E'; congruence|exact IH].
  - destruct (k0 =? k'); [reflexivity|exact IH].
Qed.

Lemma Map_delete_absent {V : Type} (k : Z) (m : JSMap V) :
  Map_get k m = None -> Map_delete k m = m.
Proof.
  unfold Map_get, Map_delete. induction m as [|[k0 v] m IH]; simpl;
    [reflexivity|].
  destruct (k0 =? k) eqn:E; simpl; [discriminate|].
  intros Hm. f_equal. exact (IH Hm).
Qed.

Section LotteryMachineProperties.

Context {num Body Composite : Type}.
Context `{JSNumber num} `{MatterJS num Body Composite}.

(** C8.  Ejecting a number with no body in the map changes nothing of the
    machine (engine, world, map) and, being a total function, does not
    fault.  Ejecting a number whose body is in the map of a running engine
    removes that body from the world and the number from the map, leaving
    the other numbers as they were; ejecting it again changes nothing. *)
Theorem ejection_removes_once (k : Z) (s : Machine num Body Composite) :
  (Map_get k (bodiesRef s) = None -> ejectionEffect (Some k) s = s) /\
  (forall body engine,
     Map_get k (bodiesRef s) = Some body ->
     engineRef s = Some engine ->
     let s' := ejectionEffect (Some k) s in
     engineRef s'
     = Some {| world := World_remove (world engine) body;
               gravity_y := gravity_y engine |} /\
     bodiesRef s' = Map_delete k (bodiesRef s) /\
     Map_get k (bodiesRef s') = None /\
     (forall k', k' <> k ->
        Map_get k' (bodiesRef s') = Map_get k' (bodiesRef s)) /\
     ejectionEffect (Some k) s' = s').
Proof.
  split.
  - intros Hnone. unfold ejectionEffect. rewrite Hnone.
    destruct (engineRef s); reflexivity.
  - intros body engine Hbody Hengine. cbv zeta.
    assert (E : ejectionEffect (Some k) s
                = {| engineRef :=
                       Some {| world := World_remove (world engine) body;
                               gravity_y := gravity_y engine |};
                     bodiesRef := Map_delete k (bodiesRef s);
                     isDrawingRef := isDrawingRef s |}).
    { unfold ejectionEffect. rewrite Hengine, Hbody. reflexivity. }
    rewrite E. cbn [engineRef bodiesRef].
    split; [reflexivity|]. split; [reflexivity|].
    split; [apply Map_get_delete|]. split.
    + intros k' Hk'. apply Map_get_delete_other, Hk'.
    + unfold ejectionEffect. cbn [engineRef bodiesRef].
      rewrite Map_get_delete. reflexivity.
Qed.



End LotteryMachineProperties.

(** ** The model on concrete inputs *)

(** The worked scenario: C waits as home, A completes the match, then E, B
    and D receive byes. *)
Example scenario_five_entrants :
  drawAll (stageMatches fiveEntrants) scenarioTicks (initialStage fiveEntrants)
  = Some scenarioEnd.
Proof. reflexivity. Qed.

Example scenario_first_two_draws :
  option_map (fun s => (currentHome s, map fixtureNumbers (fixtures s)))
    (drawAll (stageMatches fiveEntrants) (firstn 1 scenarioTicks)
       (initialStage fiveEntrants))
  = Some (Some playerC, []) /\
  option_map (fun s => (currentHome s, map fixtureNumbers (fixtures s)))
    (drawAll (stageMatches fiveEntrants) (firstn 2 scenarioTicks)
       (initialStage fiveEntrants))
  = Some (None, [[3; 1]]).
Proof. split; reflexivity. Qed.

(** In the idle regime the handler is silent; in the active regime the ball
    at the centre is skipped and the other one is pushed towards it. *)
Example handler_on_sample :
  beforeUpdate sampleWidth sampleHeight sampleRandom (gravityEffect false sampleMachine) 0
  = ([], 0%nat) /\
  map (fun c => match c with
                | Body_applyForce b _ (fx, fy) => (label b, Qred fx, Qred fy)
                | Body_setAngularVelocity b _ => (label b, 0%Q, 0%Q)
                end)
    (fst (beforeUpdate sampleWidth sampleHeight sampleRandom
            (gravityEffect true sampleMachine) 0))
  = [(1, (54 # 125)%Q, 0%Q)].
Proof. split; vm_compute; reflexivity. Qed.


Lemma full_draw_witness :
  2 <= totalPlayers fiveEntrants /\
  exists s,
    drawAll (stageMatches fiveEntrants) scenarioTicks
      (initialStage fiveEntrants) = Some s /\
    length (remainingPlayers s)
    = (length fiveEntrants - length scenarioTicks)%nat /\
    (remainingPlayers s = [] ->
     inject_Z (Z.of_nat (matchesSoFar (fixtures s)))
     == matchesNeeded (totalPlayers fiveEntrants) /\
     Z.of_nat (byesSoFar (fixtures s))
     = nextPowerOf2 (totalPlayers fiveEntrants) - totalPlayers fiveEntrants /\
     currentHome s = None).
Proof.
  assert (H5 : 2 <= totalPlayers fiveEntrants) by (unfold totalPlayers; simpl; lia).
  split; [exact H5|].
  exact (full_draw fiveEntrants scenarioTicks H5).
Defined.

Lemma drawPlayer_empty_pool_witness :
  remainingPlayers scenarioEnd = [] /\
  exists s',
    drawPlayer (stageMatches fiveEntrants) (mkRandom 0 0) "f6" scenarioEnd
    = Some s' /\
    remainingPlayers s' = remainingPlayers scenarioEnd /\
    fixtures s' = fixtures scenarioEnd /\
    currentHome s' = currentHome scenarioEnd /\
    lastDrawnNumber s' = lastDrawnNumber scenarioEnd /\
    drawHistory s' = drawHistory scenarioEnd /\
    isDrawing s' = false /\
    pacingEffect s' = (None, s').
Proof.
  split; [reflexivity|].
  exact (drawPlayer_empty_pool (stageMatches fiveEntrants) (mkRandom 0 0)
           "f6" scenarioEnd eq_refl).
Defined.

Lemma fiveEntrants_NoDup : NoDup (map number fiveEntrants).
Proof.
  simpl. repeat constructor; simpl; intuition discriminate.
Defined.

Lemma entry_numbers_distinct_witness :
  NoDup (map number fiveEntrants) /\
  exists s,
    drawAll (stageMatches fiveEntrants) scenarioTicks
      (initialStage fiveEntrants) = Some s /\
    NoDup (flat_map fixtureNumbers (fixtures s)) /\
    NoDup (map number (remainingPlayers s)) /\
    (forall p, In p (remainingPlayers s) ->
       ~ In (number p) (flat_map fixtureNumbers (fixtures s)) /\
       ~ In (number p) (pendingNumbers (currentHome s))) /\
    (forall h, currentHome s = Some h ->
       ~ In (number h) (flat_map fixtureNumbers (fixtures s))).
Proof.
  split; [exact fiveEntrants_NoDup|].
  exact (entry_numbers_distinct fiveEntrants scenarioTicks fiveEntrants_NoDup).
Defined.

Lemma fourEntrants_powerOfTwo : powerOfTwo (totalPlayers fourEntrants).
Proof. exists 2. split; [lia|reflexivity]. Defined.

Lemma power_of_two_no_bye_witness :
  powerOfTwo (totalPlayers fourEntrants) /\
  exists s,
    drawAll (stageMatches fourEntrants) scenarioTicks
      (initialStage fourEntrants) = Some s /\
    (forall f, In f (fixtures s) -> away f <> None) /\
    (remainingPlayers s <> [] ->
     (inject_Z (Z.of_nat (matchesSoFar (fixtures s)))
      < stageMatches fourEntrants)%Q).
Proof.
  split; [exact fourEntrants_powerOfTwo|].
  exact (power_of_two_no_bye fourEntrants scenarioTicks
           fourEntrants_powerOfTwo).
Defined.

Lemma finished_draw_stays_stopped_witness :
  remainingPlayers scenarioEnd = [] /\
  (exists s',
     stageRun (stageMatches fiveEntrants)
       [ToggleClick; Tick (mkRandom 0 0) "f6"; EffectRun; ToggleClick]
       scenarioEnd = Some s' /\
     remainingPlayers s' = [] /\
     (isDrawing s' = true -> isDrawing scenarioEnd = true)) /\
  toggleDraw scenarioEnd = scenarioEnd.
Proof.
  split; [reflexivity|].
  destruct (finished_draw_stays_stopped (stageMatches fiveEntrants)
              [ToggleClick; Tick (mkRandom 0 0) "f6"; EffectRun; ToggleClick]
              scenarioEnd eq_refl)
    as ((s' & Hrun & Hrem & Hflag & _) & Htoggle & _).
  split; [|exact Htoggle].
  exists s'. split; [exact Hrun|]. split; [exact Hrem|exact Hflag].
Defined.

Lemma ejection_removes_once_witness :
  Map_get 3 (bodiesRef sampleMachine) = None /\
  ejectionEffect (Some 3) sampleMachine = sampleMachine /\
  Map_get 1 (bodiesRef sampleMachine) = Some ball1 /\
  engineRef (ejectionEffect (Some 1) sampleMachine)
  = Some {| world := World_remove (world sampleEngine) ball1;
            gravity_y := gravity_y sampleEngine |} /\
  Map_get 1 (bodiesRef (ejectionEffect (Some 1) sampleMachine)) = None.
Proof.
  destruct (ejection_removes_once 3 sampleMachine) as [Hmissing _].
  destruct (ejection_removes_once 1 sampleMachine) as [_ Hpresent].
  destruct (Hpresent ball1 sampleEngine eq_refl eq_refl)
    as (Hengine & _ & Hgone & _).
  split; [reflexivity|]. split; [exact (Hmissing eq_refl)|].
  split; [reflexivity|]. split; [exact Hengine|exact Hgone].
Defined.


(** * Further properties *)

(** ** Array writes and swaps *)


Lemma nth_error_setAt_eq {A : Type} (i : nat) (x : A) (a : list A) :
  (i < length a)%nat -> nth_error (setAt i x a) i = Some x.
Proof.
  revert i. induction a as [|y a IH]; intros [|i] Hi; simpl in *;
    try lia; auto. apply IH. lia.
Qed.

Lemma nth_error_setAt_neq {A : Type} (i j : nat) (x : A) (a : list A) :
  i <> j -> nth_error (setAt i x a) j = nth_error a j.
Proof.
  revert i j. induction a as [|y a IH]; intros [|i] [|j] Hij; simpl;
    try reflexivity; try congruence. apply IH. congruence.
Qed.

Lemma setAt_perm {A : Type} (i : nat) (x y : A) (a : list A) :
  nth_error a i = Some y -> Permutation (x :: a) (y :: setAt i x a).
Proof.
  revert i. induction a as [|z a IH]; intros [|i] Hy; simpl in *;
    try discriminate.
  - injection Hy as ->. apply perm_swap.
  - rewrite perm_swap. rewrite (IH i Hy). apply perm_swap.
Qed.

Lemma swap_some {A : Type} (i j : nat) (a : list A) :
  (i < length a)%nat -> (j < length a)%nat -> exists a', swap i j a = Some a'.
Proof.
  intros Hi Hj. unfold swap.
  destruct (nth_error a j) eqn:Ej; [|apply nth_error_None in Ej; lia].
  destruct (nth_error a i) eqn:Ei; [|apply nth_error_None in Ei; lia].
  eexists. reflexivity.
Qed.

Lemma swap_perm {A : Type} (i j : nat) (a a' : list A) :
  swap i j a = Some a' -> Permutation a a'.
Proof.
  unfold swap. intros Hs.
  destruct (nth_error a j) as [aj|] eqn:Ej; [|discriminate].
  destruct (nth_error a i) as [ai|] eqn:Ei; [|discriminate].
  injection Hs as <-.
  assert (Hi : (i < length a)%nat) by (apply nth_error_Some; congruence).
  assert (Hj : nth_error (setAt i aj a) j = Some aj).
  { destruct (Nat.eq_dec i j) as [->|Hne].
    - apply nth_error_setAt_eq, Hi.
    - rewrite nth_error_setAt_neq by exact Hne. exact Ej. }
  apply (Permutation_cons_inv (a := aj)).
  rewrite (setAt_perm i aj ai a Ei).
  apply (setAt_perm j ai aj _ Hj).
Qed.

Lemma swap_length {A : Type} (i j : nat) (a a' : list A) :
  swap i j a = Some a' -> length a' = length a.
Proof.
  intros Hs. symmetry. apply Permutation_length, (swap_perm _ _ _ _ Hs).
Qed.

(** ** The shuffle of the input stage *)

Lemma fisherYates_perm (random : nat -> Random) (i k : nat)
    (numbers : list Z) :
  (i < length numbers)%nat ->
  exists shuffled,
    fisherYates random k i numbers = Some shuffled /\
    Permutation numbers shuffled.
Proof.
  revert k numbers. induction i as [|i IH]; intros k numbers Hi.
  - exists numbers. split; [reflexivity|apply Permutation_refl].
  - cbn [fisherYates].
    assert (Hj : (randomIndexOf (random k) (S i + 1) < S i + 1)%nat)
      by (apply randomIndexOf_lt; lia).
    destruct (swap_some (S i) (randomIndexOf (random k) (S i + 1)) numbers)
      as (swapped & Hs); [lia|lia|].
    rewrite Hs.
    destruct (IH (S k) swapped) as (shuffled & Hrun & Hp).
    { rewrite (swap_length _ _ _ _ Hs). lia. }
    exists shuffled. split; [exact Hrun|].
    rewrite (swap_perm _ _ _ _ Hs). exact Hp.
Qed.

Lemma shuffle_perm (random : nat -> Random) (numbers : list Z) :
  exists shuffled,
    fisherYates random 0 (length numbers - 1) numbers = Some shuffled /\
    Permutation numbers shuffled.
Proof.
  destruct numbers as [|n numbers].
  - exists []. split; [reflexivity|constructor].
  - apply fisherYates_perm. simpl. lia.
Qed.

(** X1.  The shuffle of [handleProcess], run as the code runs it (from the
    last index down, on any array and any random values), never reads or
    writes outside the array and returns a permutation of the array. *)
Theorem shuffle_is_permutation (random : nat -> Random) (numbers : list Z) :
  exists shuffled,
    fisherYates random 0 (length numbers - 1) numbers = Some shuffled /\
    Permutation numbers shuffled.
Proof. intros. apply shuffle_perm; assumption. Qed.










(** ** Assignment of numbers and the sort for display *)

Lemma skipn_nth_error {A : Type} (l : list A) (i : nat) (x : A) :
  nth_error l i = Some x -> skipn i l = x :: skipn (S i) l.
Proof.
  revert i. induction l as [|a l IH]; intros [|i] Hx; simpl in *;
    try discriminate.
  - congruence.
  - apply IH, Hx.
Qed.

Lemma assignNumbers_spec (uuid : nat -> string) (numbers : list Z)
    (names : list string) (index : nat) :
  (index + length names <= length numbers)%nat ->
  exists players,
    assignNumbers uuid numbers names index = Some players /\
    map name players = names /\
    map number players = firstn (length names) (skipn index numbers) /\
    map player_id players = map uuid (seq index (length names)).
Proof.
  revert index. induction names as [|nm names IH]; intros index Hlen.
  - exists []. repeat split; reflexivity.
  - simpl in Hlen. cbn [assignNumbers].
    destruct (nth_error numbers index) as [n|] eqn:Hn;
      [|apply nth_error_None in Hn; lia].
    destruct (IH (S index)) as (players & Hrun & Hnames & Hnums & Hids);
      [lia|].
    rewrite Hrun. eexists. split; [reflexivity|]. simpl.
    rewrite Hnames, Hnums, Hids, (skipn_nth_error _ _ _ Hn).
    repeat split; reflexivity.
Qed.

Lemma insertByNumber_perm (p : Player) (l : list Player) :
  Permutation (p :: l) (insertByNumber p l).
Proof.
  induction l as [|q l IH]; simpl; [reflexivity|].
  destruct (number p - number q <=? 0); [reflexivity|].
  rewrite perm_swap. apply perm_skip, IH.
Qed.

Lemma sortByNumber_perm (l : list Player) : Permutation l (sortByNumber l).
Proof.
  induction l as [|p l IH]; simpl; [constructor|].
  rewrite <- insertByNumber_perm. apply perm_skip, IH.
Qed.

Lemma insertByNumber_sorted (p : Player) (l : list Player) :
  StronglySorted byNumber l -> StronglySorted byNumber (insertByNumber p l).
Proof.
  induction 1 as [|q l Hs IH Hq]; simpl.
  - repeat constructor.
  - destruct (number p - number q <=? 0) eqn:E.
    + apply Z.leb_le in E. constructor; [constructor; assumption|].
      constructor; [unfold byNumber; lia|].
      eapply Forall_impl; [|exact Hq]. unfold byNumber. intros r Hr. lia.
    + apply Z.leb_gt in E. constructor; [exact IH|].
      apply (Permutation_Forall (insertByNumber_perm p l)).
      constructor; [unfold byNumber; lia|exact Hq].
Qed.

Lemma sortByNumber_sorted (l : list Player) :
  StronglySorted byNumber (sortByNumber l).
Proof.
  induction l as [|p l IH]; simpl; [constructor|].
  apply insertByNumber_sorted, IH.
Qed.

Lemma byNumber_numbers (l : list Player) :
  StronglySorted byNumber l -> StronglySorted Z.le (map number l).
Proof.
  induction 1 as [|q l Hs IH Hq]; simpl; constructor; [exact IH|].
  apply Forall_map. exact Hq.
Qed.

(** Two sorted lists of numbers with the same elements are the same list. *)
Lemma sorted_perm_unique (l1 l2 : list Z) :
  StronglySorted Z.le l1 -> StronglySorted Z.le l2 ->
  Permutation l1 l2 -> l1 = l2.
Proof.
  intros H1. revert l2. induction H1 as [|a l1 Hs1 IH Ha]; intros l2 H2 Hp.
  - apply Permutation_nil in Hp. congruence.
  - destruct H2 as [|b l2 Hs2 Hb].
    + apply Permutation_sym, Permutation_nil in Hp. discriminate.
    + assert (Hab : a = b).
      { assert (In a (b :: l2)) as [->|Hin]
          by (apply (Permutation_in a Hp); left; reflexivity);
          [reflexivity|].
        assert (In b (a :: l1)) as [->|Hin']
          by (apply (Permutation_in b (Permutation_sym Hp)); left;
              reflexivity); [reflexivity|].
        rewrite Forall_forall in Ha, Hb.
        specialize (Ha b Hin'). specialize (Hb a Hin). lia. }
      subst b. f_equal. apply IH; [exact Hs2|].
      exact (Permutation_cons_inv Hp).
Qed.

Lemma numbersUpTo_sorted (n : nat) : StronglySorted Z.le (numbersUpTo n).
Proof.
  unfold numbersUpTo. generalize 0%nat as a.
  induction n as [|n IH]; intros a; simpl; constructor; [apply IH|].
  apply Forall_forall. intros x Hx. apply in_map_iff in Hx as (i & <- & Hi).
  apply in_seq in Hi. lia.
Qed.

Lemma numbersUpTo_NoDup (n : nat) : NoDup (numbersUpTo n).
Proof.
  unfold numbersUpTo. apply Injective_map_NoDup; [|apply seq_NoDup].
  intros i j Hij. lia.
Qed.

Lemma length_numbersUpTo (n : nat) : length (numbersUpTo n) = n.
Proof. unfold numbersUpTo. rewrite length_map, length_seq. reflexivity. Qed.

(** ** handleProcess *)

Section InputStageProperties.

Variable trim : string -> string.

Lemma handleProcess_success (random : nat -> Random)
    (uuid : nat -> string) (s : InputStage) :
  (2 <= length (parseNames trim (inputText s)))%nat ->
  exists players,
    handleProcess trim random uuid s
    = Some ({| inputText := inputText s;
               assignedPlayers := players;
               step := step2 |}, None) /\
    map number players
    = numbersUpTo (length (parseNames trim (inputText s))) /\
    Permutation (map name players) (parseNames trim (inputText s)) /\
    Permutation (map player_id players)
      (map uuid (seq 0 (length (parseNames trim (inputText s))))).
Proof.
  intros Hn. unfold handleProcess.
  set (names := parseNames trim (inputText s)) in *.
  destruct (length names <? 2)%nat eqn:E; [apply Nat.ltb_lt in E; lia|].
  destruct (shuffle_perm random (numbersUpTo (length names)))
    as (shuffled & Hrun & Hp).
  cbv zeta. rewrite Hrun.
  assert (Hlen : length shuffled = length names).
  { rewrite <- (Permutation_length Hp). apply length_numbersUpTo. }
  destruct (assignNumbers_spec uuid shuffled names 0)
    as (players & Hassign & Hnames & Hnums & Hids); [lia|].
  rewrite Hassign. exists (sortByNumber players).
  split; [reflexivity|].
  pose proof (sortByNumber_perm players) as Hsort.
  repeat split.
  - apply sorted_perm_unique.
    + apply byNumber_numbers, sortByNumber_sorted.
    + apply numbersUpTo_sorted.
    + rewrite <- (Permutation_map number Hsort), Hnums.
      simpl. rewrite firstn_all2 by lia. symmetry. exact Hp.
  - rewrite <- (Permutation_map name Hsort), Hnames. reflexivity.
  - rewrite <- (Permutation_map player_id Hsort), Hids. reflexivity.
Qed.

(** X3.  With at least two names in the text, [handleProcess] does not
    fault and raises no alert: it moves to step 2 with one player per name,
    listed by number, the numbers being exactly 1, 2, ..., n in this order
    (so each is used once), the names being those of the text up to order,
    and the identifiers being the ones drawn. *)
Theorem handleProcess_assigns (random : nat -> Random)
    (uuid : nat -> string) (s : InputStage) :
  (2 <= length (parseNames trim (inputText s)))%nat ->
  exists players,
    handleProcess trim random uuid s
    = Some ({| inputText := inputText s;
               assignedPlayers := players;
               step := step2 |}, None) /\
    map number players
    = numbersUpTo (length (parseNames trim (inputText s))) /\
    Permutation (map name players) (parseNames trim (inputText s)) /\
    Permutation (map player_id players)
      (map uuid (seq 0 (length (parseNames trim (inputText s))))).
Proof. intros. apply handleProcess_success; assumption. Qed.

Lemma handleProcess_alert (random : nat -> Random)
    (uuid : nat -> string) (s : InputStage) :
  (length (parseNames trim (inputText s)) < 2)%nat ->
  handleProcess trim random uuid s
  = Some (s, Some "Please enter at least 2 players."%string).
Proof.
  intros Hn. unfold handleProcess.
  destruct (length _ <? 2)%nat eqn:E; [reflexivity|].
  apply Nat.ltb_ge in E. lia.
Qed.


End InputStageProperties.

Lemma handleProcess_assigns_witness :
  (2 <= length (parseNames asciiTrim (inputText sampleInput)))%nat /\
  exists ps,
    handleProcess asciiTrim sampleShuffle sampleUuid sampleInput
    = Some ({| inputText := inputText sampleInput;
               assignedPlayers := ps;
               step := step2 |}, None) /\
    map number ps
    = numbersUpTo (length (parseNames asciiTrim (inputText sampleInput))) /\
    Permutation (map name ps) (parseNames asciiTrim (inputText sampleInput)) /\
    Permutation (map player_id ps)
      (map sampleUuid
         (seq 0 (length (parseNames asciiTrim (inputText sampleInput))))).
Proof.
  assert (H2 : (2 <= length (parseNames asciiTrim (inputText sampleInput)))%nat)
    by (vm_compute; lia).
  split; [exact H2|].
  exact (handleProcess_assigns asciiTrim sampleShuffle sampleUuid
           sampleInput H2).
Defined.


(** The sample text: three names, the blank line dropped, the spaces around
    Bob trimmed; with the last two numbers swapped Bob gets 3 and Cy 2, and
    the players are listed by number. *)
Example handleProcess_on_sample :
  handleProcess asciiTrim sampleShuffle sampleUuid sampleInput
  = Some ({| inputText := sampleText;
             assignedPlayers :=
               [ mkPlayer "u0" "Ann" 1; mkPlayer "u2" "Cy" 2;
                 mkPlayer "u1" "Bob" 3 ];
             step := step2 |}, None).
Proof. reflexivity. Qed.

(** ** Runs of the draw stage with all its events *)

Lemma stageStep_total (m : Q) (e : StageEvent) (s : DrawStage) :
  exists s', stageStep m e s = Some s'.
Proof.
  destruct e as [r uuid| |]; simpl; eauto.
  destruct (drawPlayer_Drawn m r uuid s) as (s' & E & _). eauto.
Qed.

Lemma stageRun_app (m : Q) (es1 es2 : list StageEvent) (s : DrawStage) :
  stageRun m (es1 ++ es2) s
  = match stageRun m es1 s with
    | Some s1 => stageRun m es2 s1
    | None => None
    end.
Proof.
  revert s. induction es1 as [|e es1 IH]; intros s; simpl; [reflexivity|].
  destruct (stageStep m e s); [apply IH|reflexivity].
Qed.

Lemma toggleDraw_setIsDrawing (s : DrawStage) :
  toggleDraw s = s \/ toggleDraw s = setIsDrawing (negb (isDrawing s)) s.
Proof.
  unfold toggleDraw. destruct (0 <? _)%nat; [right|left]; reflexivity.
Qed.

Lemma pacingEffect_setIsDrawing (s : DrawStage) :
  snd (pacingEffect s) = s \/ snd (pacingEffect s) = setIsDrawing false s.
Proof.
  unfold pacingEffect. destruct (isDrawing s && _); [left; reflexivity|].
  destruct (_ =? 0)%nat; [right|left]; reflexivity.
Qed.

(** A property kept by every draw and blind to the drawing flag is kept by
    every run of events, and no run faults. *)
Lemma stageRun_invariant (m : Q) (P : DrawStage -> Prop) :
  (forall uuid s s', P s -> Drawn m uuid s s' -> P s') ->
  (forall b s, P s -> P (setIsDrawing b s)) ->
  forall es s, P s -> exists s', stageRun m es s = Some s' /\ P s'.
Proof.
  intros Hdraw Hflag es. induction es as [|e es IH]; intros s Hs.
  - exists s. split; [reflexivity|exact Hs].
  - simpl. destruct e as [r uuid| |]; simpl.
    + destruct (drawPlayer_Drawn m r uuid s) as (s1 & E & Hd).
      rewrite E. apply IH. eapply Hdraw; eauto.
    + apply IH. destruct (pacingEffect_setIsDrawing s) as [-> | ->]; auto.
    + apply IH. destruct (toggleDraw_setIsDrawing s) as [-> | ->]; auto.
Qed.

(** ** The application *)

Lemma validEntrants_NoDup (ps : list Player) :
  validEntrants ps -> NoDup (map number ps).
Proof.
  intros [_ ->]. apply numbersUpTo_NoDup.
Qed.

Section ApplicationProperties.

Variable trim : string -> string.

Lemma uiStep_invariant (e : UIEvent) (u : UI) :
  uiInvariant u ->
  exists u', uiStep trim e u = Some u' /\ uiInvariant u'.
Proof.
  unfold uiInvariant, uiStep.
  destruct (screen u) as [i|d|] eqn:Hscreen; [| |contradiction].
  - intros [Hstage Hstep].
    destruct e as [text|random uuid| | |e'|confirmed];
      destruct (step i) eqn:Estep;
      try (exists u; rewrite Hscreen, Estep; split; [reflexivity|];
           split; assumption);
      try (exists u; rewrite Hscreen; split; [reflexivity|];
           rewrite Estep; split; assumption).
    + eexists. split; [reflexivity|]. simpl. rewrite Estep.
      split; assumption.
    + destruct (le_lt_dec 2 (length (parseNames trim (inputText i))))
        as [Hn|Hn].
      * destruct (handleProcess_success trim random uuid i Hn)
          as (ps & -> & Hnum & Hnames & _).
        eexists. split; [reflexivity|]. simpl. split; [exact Hstage|].
        split; [|rewrite Hnum, <- (Permutation_length Hnames), length_map;
                 reflexivity].
        rewrite <- (length_map name), (Permutation_length Hnames). exact Hn.
      * rewrite (handleProcess_alert trim random uuid i Hn).
        eexists. split; [reflexivity|]. simpl. rewrite Estep.
        split; assumption.
    + eexists. split; [reflexivity|]. simpl. split; [exact Hstage|reflexivity].
    + eexists. split; [reflexivity|]. simpl. split; [reflexivity|].
      split; [exact Hstep|]. exists []. reflexivity.
  - intros (Hstage & Hvalid & es & Hrun).
    destruct e as [text|random uuid| | |e'|confirmed];
      try (exists u; rewrite Hscreen; split; [reflexivity|];
           split; [exact Hstage|]; split; [exact Hvalid|];
           exists es; exact Hrun).
    + destruct (stageStep_total (stageMatches (players (app u))) e' d)
        as (d' & E).
      rewrite E. eexists. split; [reflexivity|]. simpl.
      split; [exact Hstage|]. split; [exact Hvalid|].
      exists (es ++ [e']). rewrite stageRun_app, Hrun. simpl.
      rewrite E. reflexivity.
    + eexists. split; [reflexivity|]. destruct confirmed; simpl.
      * split; reflexivity.
      * rewrite Hstage. simpl. split; [reflexivity|].
        split; [exact Hvalid|]. exists es. exact Hrun.
Qed.

Lemma uiRun_invariant (es : list UIEvent) (u : UI) :
  uiInvariant u ->
  exists u', uiRun trim es u = Some u' /\ uiInvariant u'.
Proof.
  revert u. induction es as [|e es IH]; intros u Hu.
  - exists u. split; [reflexivity|exact Hu].
  - simpl. destruct (uiStep_invariant e u Hu) as (u1 & -> & Hu1).
    apply IH, Hu1.
Qed.

Lemma initialUI_invariant : uiInvariant initialUI.
Proof. split; reflexivity. Qed.

Lemma uiRun_draw_screen (es : list UIEvent) :
  exists u,
    uiRun trim es initialUI = Some u /\
    forall d, screen u = DrawScreen d ->
      stage (app u) = DRAW /\
      (2 <= length (players (app u)))%nat /\
      map number (players (app u))
      = numbersUpTo (length (players (app u))) /\
      NoDup (map number (players (app u))) /\
      drawReachable (players (app u)) d.
Proof.
  destruct (uiRun_invariant es initialUI initialUI_invariant)
    as (u & Hrun & Hinv).
  exists u. split; [exact Hrun|]. intros d Hd.
  unfold uiInvariant in Hinv. rewrite Hd in Hinv.
  destruct Hinv as (Hstage & Hvalid & Hreach).
  pose proof (validEntrants_NoDup _ Hvalid) as Hnd.
  destruct Hvalid as [H2 Hnum]. repeat split; assumption.
Qed.

(** X5.  Whatever the user types and clicks and whenever the timer fires,
    the application does not fault, and whenever it shows the draw stage it
    is in stage DRAW with at least two players, numbered 1, 2, ..., N in
    this order (hence all different), and the draw stage is in a state its
    own events lead to from those players. *)
Theorem draw_stage_gets_valid_entrants (es : list UIEvent) :
  exists u,
    uiRun trim es initialUI = Some u /\
    forall d, screen u = DrawScreen d ->
      stage (app u) = DRAW /\
      (2 <= length (players (app u)))%nat /\
      map number (players (app u))
      = numbersUpTo (length (players (app u))) /\
      NoDup (map number (players (app u))) /\
      drawReachable (players (app u)) d.
Proof. intros. apply uiRun_draw_screen; assumption. Qed.

(** X6.  The application never reaches stage FINISHED and always shows one
    of its two stages.  While it shows the input stage it is in stage INPUT;
    in step 1 no player is assigned, and in step 2, the only step from which
    the draw can be started, the assigned players are at least two and
    numbered 1, 2, ..., n in this order. *)
Theorem input_stage_review_is_valid (es : list UIEvent) :
  exists u,
    uiRun trim es initialUI = Some u /\
    stage (app u) <> FINISHED /\
    screen u <> Blank /\
    forall i, screen u = InputScreen i ->
      stage (app u) = INPUT /\
      (step i = step1 -> assignedPlayers i = []) /\
      (step i = step2 ->
         (2 <= length (assignedPlayers i))%nat /\
         map number (assignedPlayers i)
         = numbersUpTo (length (assignedPlayers i))).
Proof.
  destruct (uiRun_invariant es initialUI initialUI_invariant)
    as (u & Hrun & Hinv).
  exists u. split; [exact Hrun|]. unfold uiInvariant in Hinv.
  destruct (screen u) as [i|d|] eqn:Hscreen; [| |contradiction].
  - destruct Hinv as [Hstage Hstep].
    split; [congruence|]. split; [discriminate|].
    intros i' Hi'. injection Hi' as <-. split; [exact Hstage|].
    destruct (step i); split; intros; try discriminate; assumption.
  - destruct Hinv as [Hstage _].
    split; [congruence|]. split; [discriminate|]. intros i' Hi'.
    discriminate.
Qed.

End ApplicationProperties.

(** ** More on the draw stage *)

(** The planner's quota is a natural number, for every number of players
    (0 below two players). *)
Lemma stageMatches_quota (initialPlayers : list Player) :
  exists M : nat,
    stageMatches initialPlayers == inject_Z (Z.of_nat M) /\
    (2 <= totalPlayers initialPlayers ->
     Z.of_nat M = matchesInt (totalPlayers initialPlayers)).
Proof.
  destruct (Z_lt_le_dec (totalPlayers initialPlayers) 2) as [Hlt|Hge].
  - exists 0%nat. split; [|lia]. unfold stageMatches.
    rewrite (matchesNeeded_small _ Hlt). reflexivity.
  - exists (Z.to_nat (matchesInt (totalPlayers initialPlayers))).
    split; [apply stageMatches_nat, Hge|].
    intros _. pose proof (matchesInt_bounds _ Hge). lia.
Qed.

Lemma BracketInv_flag (N M : nat) (b : bool) (s : DrawStage) :
  BracketInv N M s -> BracketInv N M (setIsDrawing b s).
Proof. intros [H1 H2 H3 H4]. constructor; assumption. Qed.

Lemma drawReachable_BracketInv (initialPlayers : list Player) (M : nat)
    (d : DrawStage) :
  stageMatches initialPlayers == inject_Z (Z.of_nat M) ->
  drawReachable initialPlayers d ->
  BracketInv (length initialPlayers) M d.
Proof.
  intros HM (es & Hrun).
  destruct (stageRun_invariant (stageMatches initialPlayers)
              (BracketInv (length initialPlayers) M))
    with (es := es) (s := initialStage initialPlayers) as (d' & Hrun' & Hd').
  - intros uuid s s' Hs Hd. eapply Drawn_BracketInv; eauto.
  - intros b s. apply BracketInv_flag.
  - apply initialStage_BracketInv.
  - congruence.
Qed.


(** X7.  For every number of players and every run of the draw stage (timer
    ticks, pauses and resumes, runs of the pacing effect), the run does not
    fault, the number of fixtures with an away entrant never exceeds
    [matchesNeeded], a fixture without an away entrant exists only once that
    number has reached [matchesNeeded], and an entrant waits as home only
    while it has not. *)
Theorem quota_never_exceeded (initialPlayers : list Player)
    (es : list StageEvent) :
  exists s,
    stageRun (stageMatches initialPlayers) es (initialStage initialPlayers)
    = Some s /\
    (inject_Z (Z.of_nat (matchesSoFar (fixtures s)))
     <= stageMatches initialPlayers)%Q /\
    ((exists f, In f (fixtures s) /\ away f = None) ->
     inject_Z (Z.of_nat (matchesSoFar (fixtures s)))
     == stageMatches initialPlayers) /\
    (currentHome s <> None ->
     (inject_Z (Z.of_nat (matchesSoFar (fixtures s)))
      < stageMatches initialPlayers)%Q).
Proof.
  destruct (stageMatches_quota initialPlayers) as (M & HM & _).
  destruct (stageRun_invariant (stageMatches initialPlayers)
              (BracketInv (length initialPlayers) M))
    with (es := es) (s := initialStage initialPlayers)
    as (s & Hrun & [Hacc Hq Hbye Hhome]).
  - intros uuid s s' Hs Hd. eapply Drawn_BracketInv; eauto.
  - intros b s. apply BracketInv_flag.
  - apply initialStage_BracketInv.
  - exists s. split; [exact Hrun|]. rewrite HM. repeat split.
    + rewrite <- Zle_Qle. lia.
    + intros (f & Hf & Haway).
      destruct (Nat.eq_dec (matchesSoFar (fixtures s)) M) as [->|Hne];
        [reflexivity|].
      exfalso. assert (Hlt : (matchesSoFar (fixtures s) < M)%nat) by lia.
      exact (no_byes_all_matches _ (Hbye Hlt) f Hf Haway).
    + intros Hpending. rewrite <- Zlt_Qlt.
      destruct (Nat.eq_dec (matchesSoFar (fixtures s)) M) as [E|Hne];
        [|lia].
      exfalso. exact (Hpending (Hhome E)).
Qed.

Section ApplicationDraw.

Variable trim : string -> string.


End ApplicationDraw.

Lemma matchesSoFar_app (fs gs : list Fixture) :
  matchesSoFar (fs ++ gs) = (matchesSoFar fs + matchesSoFar gs)%nat.
Proof.
  unfold matchesSoFar. rewrite filter_app, length_app. reflexivity.
Qed.

Lemma Drawn_byesAfterMatches (m : Q) (uuid : string) (s s' : DrawStage) :
  byesAfterMatches m s -> Drawn m uuid s s' -> byesAfterMatches m s'.
Proof.
  intros (byes & matches & Hfs & Hb & Hm & Hq) Hd.
  destruct Hd as [Hrem|i d Hn Hlt Hh|i d w Hn Hlt Hh|i d Hn Hge].
  - exists byes, matches. repeat split; assumption.
  - exists byes, matches. repeat split; assumption.
  - destruct byes as [|b byes].
    + exists [], ({| fixture_id := uuid; home := w; away := Some d |}
                  :: matches).
      simpl in *. rewrite Hfs. repeat split.
      * constructor.
      * constructor; [discriminate|exact Hm].
      * intros H. congruence.
    + exfalso. rewrite Hq in Hlt; [discriminate|discriminate].
  - exists ({| fixture_id := uuid; home := d; away := None |} :: byes),
      matches.
    simpl. rewrite Hfs. repeat split.
    + constructor; [reflexivity|exact Hb].
    + exact Hm.
    + intros _. rewrite <- Hfs. exact Hge.
Qed.

(** X9.  In every run of the draw stage all matches are drawn before any
    bye: the fixture list, which is newest first, consists of the fixtures
    without an away entrant followed by the fixtures with one. *)
Theorem byes_come_after_matches (initialPlayers : list Player)
    (es : list StageEvent) :
  exists s byes matches,
    stageRun (stageMatches initialPlayers) es (initialStage initialPlayers)
    = Some s /\
    fixtures s = byes ++ matches /\
    Forall (fun f => away f = None) byes /\
    Forall (fun f => away f <> None) matches.
Proof.
  destruct (stageRun_invariant (stageMatches initialPlayers)
              (byesAfterMatches (stageMatches initialPlayers)))
    with (es := es) (s := initialStage initialPlayers)
    as (s & Hrun & byes & matches & Hfs & Hb & Hm & _).
  - intros uuid s s'. apply Drawn_byesAfterMatches.
  - intros b s Hs. exact Hs.
  - exists [], []. repeat split; try constructor. intros H. congruence.
  - exists s, byes, matches. repeat split; assumption.
Qed.

Lemma splice1_incl {A : Type} (i : nat) (l : list A) :
  incl (splice1 i l) l.
Proof.
  unfold splice1. intros x Hx. apply in_app_or in Hx as [Hx|Hx].
  - rewrite <- (firstn_skipn i l). apply in_or_app. left. exact Hx.
  - rewrite <- (firstn_skipn (S i) l). apply in_or_app. right. exact Hx.
Qed.

Lemma stageStep_grows (m : Q) (e : StageEvent) (s s' : DrawStage) :
  stageStep m e s = Some s' ->
  (exists newer, fixtures s' = newer ++ fixtures s) /\
  (exists newer, drawHistory s' = newer ++ drawHistory s) /\
  incl (remainingPlayers s') (remainingPlayers s).
Proof.
  destruct e as [r uuid| |]; simpl; intros Hs.
  - destruct (drawPlayer_Drawn m r uuid s) as (s1 & E & Hd).
    assert (s1 = s') by congruence. subst s1.
    destruct Hd; simpl; repeat split;
      try (exists []; reflexivity);
      try (eexists [_]; reflexivity);
      try apply splice1_incl; apply incl_refl.
  - injection Hs as <-.
    destruct (pacingEffect_setIsDrawing s) as [-> | ->]; simpl;
      repeat split; try (exists []; reflexivity); apply incl_refl.
  - injection Hs as <-.
    destruct (toggleDraw_setIsDrawing s) as [-> | ->]; simpl;
      repeat split; try (exists []; reflexivity); apply incl_refl.
Qed.

(** X10.  No event of the draw stage removes or changes a fixture or a log
    entry, or returns an entrant to the pool: after any run from any state,
    the earlier fixtures are the tail of the fixture list, the earlier log
    is the tail of the log, and every entrant of the pool was in it
    before. *)
Theorem fixtures_only_grow (m : Q) (es : list StageEvent)
    (s s' : DrawStage) :
  stageRun m es s = Some s' ->
  (exists newer, fixtures s' = newer ++ fixtures s) /\
  (exists newer, drawHistory s' = newer ++ drawHistory s) /\
  incl (remainingPlayers s') (remainingPlayers s).
Proof.
  revert s. induction es as [|e es IH]; intros s Hrun; simpl in Hrun.
  - injection Hrun as <-. repeat split; try (exists []; reflexivity).
    apply incl_refl.
  - destruct (stageStep m e s) as [s1|] eqn:E; [|discriminate].
    destruct (stageStep_grows m e s s1 E) as ((f1 & Hf1) & (h1 & Hh1) & Hi1).
    destruct (IH s1 Hrun) as ((f2 & Hf2) & (h2 & Hh2) & Hi2).
    repeat split.
    + exists (f2 ++ f1). rewrite Hf2, Hf1, app_assoc. reflexivity.
    + exists (h2 ++ h1). rewrite Hh2, Hh1, app_assoc. reflexivity.
    + eapply incl_tran; eauto.
Qed.

Lemma fixtures_only_grow_witness :
  stageRun (stageMatches fiveEntrants)
    [ToggleClick; Tick (mkRandom 2 2) "f1"; EffectRun;
     Tick (mkRandom 0 0) "f2"]
    (initialStage fiveEntrants)
  = Some {| remainingPlayers := [playerB; playerD; playerE];
            fixtures := [mkFixture "f2" playerC (Some playerA)];
            currentHome := None;
            lastDrawnNumber := Some 1;
            isDrawing := true;
            drawHistory := ["A drawn vs C"; "C drawn as Home"]%string |} /\
  incl [playerB; playerD; playerE] fiveEntrants.
Proof.
  assert (Hrun :
    stageRun (stageMatches fiveEntrants)
      [ToggleClick; Tick (mkRandom 2 2) "f1"; EffectRun;
       Tick (mkRandom 0 0) "f2"]
      (initialStage fiveEntrants)
    = Some {| remainingPlayers := [playerB; playerD; playerE];
              fixtures := [mkFixture "f2" playerC (Some playerA)];
              currentHome := None;
              lastDrawnNumber := Some 1;
              isDrawing := true;
              drawHistory := ["A drawn vs C"; "C drawn as Home"]%string |})
    by reflexivity.
  split; [exact Hrun|].
  exact (proj2 (proj2 (fixtures_only_grow _ _ _ _ Hrun))).
Defined.

Lemma drawPlayer_drawData (m : Q) (r : Random) (uuid : string)
    (s1 s2 s1' : DrawStage) :
  drawData s1 = drawData s2 ->
  drawPlayer m r uuid s1 = Some s1' ->
  exists s2', drawPlayer m r uuid s2 = Some s2' /\ drawData s1' = drawData s2'.
Proof.
  destruct s1 as [rem1 fs1 h1 l1 d1 hist1], s2 as [rem2 fs2 h2 l2 d2 hist2].
  unfold drawData. simpl. intros E. injection E as -> -> -> -> ->.
  unfold drawPlayer. simpl.
  destruct rem2 as [|p ps].
  - intros H. injection H as <-. eexists. split; reflexivity.
  - destruct (nth_error _ _) as [drawn|]; [|discriminate].
    destruct (Qltb _ m); [destruct h2|];
      intros H; injection H as <-; eexists; split; reflexivity.
Qed.

(** X11.  Pausing, resuming and the pacing effect do not change the draw:
    from any state, a run of events leaves the pool, the fixtures, the
    pending home entrant, the last drawn number and the log exactly as the
    timer ticks of that run alone do. *)
Theorem pauses_do_not_change_the_draw (m : Q) (es : list StageEvent)
    (s : DrawStage) :
  exists s' s'',
    stageRun m es s = Some s' /\
    drawAll m (ticksOf es) s = Some s'' /\
    drawData s' = drawData s''.
Proof.
  enough (H : forall s1 s2, drawData s1 = drawData s2 ->
            exists s' s'', stageRun m es s1 = Some s' /\
                           drawAll m (ticksOf es) s2 = Some s'' /\
                           drawData s' = drawData s'')
    by (apply H; reflexivity).
  induction es as [|e es IH]; intros s1 s2 Hd.
  - exists s1, s2. repeat split; assumption.
  - destruct e as [r uuid| |]; simpl.
    + destruct (drawPlayer_Drawn m r uuid s1) as (s1' & E1 & _).
      destruct (drawPlayer_drawData m r uuid s1 s2 s1' Hd E1)
        as (s2' & E2 & Hd').
      rewrite E1, E2. apply IH, Hd'.
    + apply IH. rewrite <- Hd.
      destruct (pacingEffect_setIsDrawing s1) as [-> | ->]; reflexivity.
    + apply IH. rewrite <- Hd.
      destruct (toggleDraw_setIsDrawing s1) as [-> | ->]; reflexivity.
Qed.



(** ** More on the bracket *)

Lemma matches_plus_byes (fs : list Fixture) :
  (matchesSoFar fs + byesSoFar fs)%nat = length fs.
Proof.
  unfold matchesSoFar, byesSoFar, isBye.
  induction fs as [|f fs IH]; simpl; [reflexivity|].
  destruct (isMatch f); simpl; lia.
Qed.

(** X13.  On at least two entrants, once a run of the draw stage has
    emptied the pool, the fixtures (matches and byes together) are exactly
    half the next power of two: the first round fills a full bracket. *)
Theorem first_round_fills_the_bracket (initialPlayers : list Player)
    (es : list StageEvent) (s : DrawStage) :
  2 <= totalPlayers initialPlayers ->
  stageRun (stageMatches initialPlayers) es (initialStage initialPlayers)
  = Some s ->
  remainingPlayers s = [] ->
  2 * Z.of_nat (length (fixtures s))
  = nextPowerOf2 (totalPlayers initialPlayers).
Proof.
  intros HN Hrun Hempty.
  destruct (stageMatches_quota initialPlayers) as (M & HM & HMint).
  specialize (HMint HN).
  assert (Hreach : drawReachable initialPlayers s) by (exists es; exact Hrun).
  pose proof (drawReachable_BracketInv _ M s HM Hreach)
    as [Hacc Hq Hbye Hhome].
  pose proof (matchesInt_bounds _ HN) as [H1 H2].
  pose proof (matchesInt_byes _ HN) as Hb. unfold byesNeeded in Hb.
  pose proof (matches_plus_byes (fixtures s)) as Hsum.
  unfold accounted in Hacc. rewrite Hempty in Hacc. simpl in Hacc.
  unfold totalPlayers in *.
  assert (Hm : matchesSoFar (fixtures s) = M).
  { destruct (Nat.eq_dec (matchesSoFar (fixtures s)) M) as [E|E];
      [exact E|].
    assert (Hlt : (matchesSoFar (fixtures s) < M)%nat) by lia.
    specialize (Hbye Hlt). destruct (currentHome s); lia. }
  specialize (Hhome Hm). rewrite Hhome in Hacc. lia.
Qed.

Lemma first_round_fills_the_bracket_witness :
  2 <= totalPlayers fiveEntrants /\
  remainingPlayers scenarioEnd = [] /\
  2 * Z.of_nat (length (fixtures scenarioEnd))
  = nextPowerOf2 (totalPlayers fiveEntrants).
Proof.
  assert (H5 : 2 <= totalPlayers fiveEntrants)
    by (unfold totalPlayers; simpl; lia).
  assert (Hrun :
    stageRun (stageMatches fiveEntrants)
      (map (fun t => Tick (fst t) (snd t)) scenarioTicks)
      (initialStage fiveEntrants) = Some scenarioEnd) by reflexivity.
  split; [exact H5|]. split; [reflexivity|].
  exact (first_round_fills_the_bracket fiveEntrants _ scenarioEnd H5 Hrun
           eq_refl).
Defined.

(** X14.  For [N >= 2] the power of two the planner pads to is the least
    one that is at least [N]; the byes are fewer than the players, and there
    are none exactly when [N] is itself a power of two. *)
Theorem planner_pads_to_least_power (N : Z) :
  2 <= N ->
  N <= nextPowerOf2 N /\
  (forall e, 0 <= e -> N <= 2 ^ e -> nextPowerOf2 N <= 2 ^ e) /\
  0 <= byesNeeded N < N /\
  (byesNeeded N = 0 <-> powerOfTwo N).
Proof.
  intros HN. pose proof (nextPowerOf2_bounds N HN) as [Hlo Hhi].
  pose proof (nextPowerOf2_double N HN) as Hd.
  assert (Hpos : 0 < Z.log2_up N) by (apply Z.log2_up_pos; lia).
  split; [exact Hhi|]. split; [|split].
  - intros e He Hle. unfold nextPowerOf2.
    apply Z.pow_le_mono_r; [lia|].
    destruct (Z_le_gt_dec (Z.log2_up N) e) as [Hok|Hgt]; [exact Hok|].
    exfalso.
    assert (2 ^ e <= 2 ^ (Z.log2_up N - 1))
      by (apply Z.pow_le_mono_r; lia).
    lia.
  - unfold byesNeeded. lia.
  - split.
    + intros Hz. exists (Z.log2_up N). split; [lia|].
      unfold byesNeeded, nextPowerOf2 in Hz. lia.
    + intros Hpow. apply (powerOfTwo_planner N Hpow).
Qed.

Lemma planner_pads_to_least_power_witness :
  2 <= 5 /\
  5 <= nextPowerOf2 5 /\
  (forall e, 0 <= e -> 5 <= 2 ^ e -> nextPowerOf2 5 <= 2 ^ e) /\
  0 <= byesNeeded 5 < 5 /\
  (byesNeeded 5 = 0 <-> powerOfTwo 5).
Proof.
  assert (H5 : 2 <= 5) by lia.
  split; [exact H5|]. exact (planner_pads_to_least_power 5 H5).
Defined.

(** ** The map of bodies *)

Lemma Map_get_set_eq {V : Type} (k : Z) (v : V) (m : JSMap V) :
  Map_get k (Map_set k v m) = Some v.
Proof.
  unfold Map_get. induction m as [|[k0 v0] m IH]; simpl.
  - rewrite Z.eqb_refl. reflexivity.
  - destruct (k0 =? k) eqn:E; simpl.
    + rewrite Z.eqb_refl. reflexivity.
    + rewrite E. exact IH.
Qed.

Lemma Map_get_set_neq {V : Type} (k k' : Z) (v : V) (m : JSMap V) :
  k' <> k -> Map_get k' (Map_set k v m) = Map_get k' m.
Proof.
  intros Hne. unfold Map_get. induction m as [|[k0 v0] m IH]; simpl.
  - destruct (k =? k') eqn:E; [apply Z.eqb_eq in E; congruence|reflexivity].
  - destruct (k0 =? k) eqn:E; simpl.
    + apply Z.eqb_eq in E. subst k0.
      destruct (k =? k') eqn:E'; [apply Z.eqb_eq in E'; congruence|].
      reflexivity.
    + destruct (k0 =? k'); [reflexivity|exact IH].
Qed.

Lemma Map_keys_set_new {V : Type} (k : Z) (v : V) (m : JSMap V) :
  ~ In k (Map_keys m) -> Map_keys (Map_set k v m) = Map_keys m ++ [k].
Proof.
  unfold Map_keys. induction m as [|[k0 v0] m IH]; simpl; intros Hk.
  - reflexivity.
  - destruct (k0 =? k) eqn:E.
    + apply Z.eqb_eq in E. exfalso. apply Hk. left. exact E.
    + simpl. f_equal. apply IH. intros Hin. apply Hk. right. exact Hin.
Qed.

Lemma Map_get_in_keys {V : Type} (k : Z) (m : JSMap V) :
  In k (Map_keys m) -> exists v, Map_get k m = Some v /\ In (k, v) m.
Proof.
  unfold Map_keys, Map_get. induction m as [|[k0 v0] m IH]; simpl;
    [contradiction|].
  intros Hin. destruct (k0 =? k) eqn:E.
  - apply Z.eqb_eq in E. subst k0. exists v0. split; [reflexivity|].
    left. reflexivity.
  - destruct Hin as [->|Hin]; [rewrite Z.eqb_refl in E; discriminate|].
    destruct (IH Hin) as (v & Hv & Hv'). exists v. split; [exact Hv|].
    right. exact Hv'.
Qed.

Lemma Map_keys_delete {V : Type} (k : Z) (m : JSMap V) :
  Map_keys (Map_delete k m)
  = filter (fun k' => negb (k' =? k)) (Map_keys m).
Proof.
  unfold Map_keys, Map_delete. induction m as [|[k0 v0] m IH]; simpl;
    [reflexivity|].
  destruct (k0 =? k); simpl; [exact IH|]. f_equal. exact IH.
Qed.

Lemma filter_out_absent (x : Z) (l : list Z) :
  ~ In x l -> filter (fun y => negb (y =? x)) l = l.
Proof.
  induction l as [|a l IH]; simpl; intros Hx; [reflexivity|].
  destruct (a =? x) eqn:E.
  - apply Z.eqb_eq in E. exfalso. apply Hx. left. exact E.
  - simpl. f_equal. apply IH. intros Hin. apply Hx. right. exact Hin.
Qed.

(** Without duplicates, deleting a value is removing its position. *)
Lemma filter_out_splice1 (x : Z) (l : list Z) (i : nat) :
  NoDup l -> nth_error l i = Some x ->
  filter (fun y => negb (y =? x)) l = splice1 i l.
Proof.
  intros Hnd. revert i. induction Hnd as [|a l Ha Hnd IH]; intros [|i] Hx;
    simpl in *; try discriminate.
  - injection Hx as ->. rewrite Z.eqb_refl. simpl.
    unfold splice1. simpl. apply filter_out_absent, Ha.
  - destruct (a =? x) eqn:E.
    + apply Z.eqb_eq in E. subst a. exfalso. apply Ha.
      exact (nth_error_In _ _ Hx).
    + simpl. unfold splice1. simpl. f_equal. apply (IH i Hx).
Qed.

Lemma map_splice1 {A B : Type} (f : A -> B) (i : nat) (l : list A) :
  map f (splice1 i l) = splice1 i (map f l).
Proof.
  unfold splice1. rewrite map_app, firstn_map, skipn_map. reflexivity.
Qed.

Lemma sameNumber_refl (a : option Z) : sameNumber a a = true.
Proof. destruct a; simpl; [apply Z.eqb_refl|reflexivity]. Qed.

(** A call of [drawPlayer] either finds the pool empty or takes one entrant
    out of it and records its number, leaving the drawing flag alone. *)
Lemma Drawn_cases (m : Q) (uuid : string) (s s' : DrawStage) :
  Drawn m uuid s s' ->
  (remainingPlayers s = [] /\ s' = setIsDrawing false s) \/
  (exists i drawn,
     nth_error (remainingPlayers s) i = Some drawn /\
     remainingPlayers s' = splice1 i (remainingPlayers s) /\
     lastDrawnNumber s' = Some (number drawn) /\
     isDrawing s' = isDrawing s).
Proof.
  intros Hd. destruct Hd as [Hrem|i d Hn _ _|i d w Hn _ _|i d Hn _];
    [left; split; [exact Hrem|reflexivity]| | |];
    right; exists i, d; repeat split; assumption.
Qed.

Section LotteryMachineLifecycleProperties.

Context {num Body Composite : Type}.
Context `{JSNumber num} `{MatterJS num Body Composite}
        `{MatterSetup num Body Composite}.

Lemma createBalls_spec (width height : num) (random : nat -> num)
    (players : list Player) :
  forall (index k : nat) (balls : list Body) (bodies : JSMap Body),
    NoDup (map number players) ->
    (forall p, In p players -> ~ In (number p) (Map_keys bodies)) ->
    let bodies' :=
      snd (fst (createBalls width height random players index k balls
                  bodies)) in
    Map_keys bodies' = Map_keys bodies ++ map number players /\
    (forall p, In p players ->
       exists x y fill,
         Map_get (number p) bodies'
         = Some (Bodies_circle x y (lit BALL_RADIUS) (number p) fill)) /\
    (forall n, ~ In n (map number players) ->
       Map_get n bodies' = Map_get n bodies).
Proof.
  induction players as [|p rest IH]; intros index k balls bodies Hnd Hnew;
    cbv zeta.
  - simpl. rewrite app_nil_r. split; [reflexivity|].
    split; [intros p []|reflexivity].
  - cbn [createBalls]. cbv zeta.
    set (ball := Bodies_circle _ _ _ (number p) _).
    simpl in Hnd. inversion Hnd as [|? ? Hp Hnd']; subst.
    assert (Hkeys : Map_keys (Map_set (number p) ball bodies)
                    = Map_keys bodies ++ [number p]).
    { apply Map_keys_set_new, Hnew. left. reflexivity. }
    destruct (IH (S index) (S (S k)) (balls ++ [ball])
                (Map_set (number p) ball bodies) Hnd')
      as (Hk & Hballs & Hother).
    { intros q Hq. rewrite Hkeys. intros Hin.
      apply in_app_or in Hin as [Hin|[Hin|[]]].
      - apply (Hnew q); [right; exact Hq|exact Hin].
      - apply Hp. rewrite Hin. apply in_map, Hq. }
    split; [|split].
    + rewrite Hk, Hkeys, <- app_assoc. reflexivity.
    + intros q [<-|Hq]; [|apply Hballs, Hq].
      rewrite (Hother _ Hp), Map_get_set_eq.
      do 3 eexists. reflexivity.
    + intros n Hn. simpl in Hn.
      assert (Hn1 : ~ In n (map number rest))
        by (intros Hin; apply Hn; right; exact Hin).
      assert (Hn2 : n <> number p)
        by (intros E; apply Hn; left; symmetry; exact E).
      rewrite (Hother n Hn1). apply Map_get_set_neq, Hn2.
Qed.

Lemma mountMachine_spec (width height : num)
    (random : nat -> num) (initialPlayers : list Player) (flag : bool) :
  NoDup (map number initialPlayers) ->
  let s := mountMachine true width height random initialPlayers None flag in
  Map_keys (bodiesRef s) = map number initialPlayers /\
  (forall p, In p initialPlayers ->
     exists x y fill,
       Map_get (number p) (bodiesRef s)
       = Some (Bodies_circle x y (lit BALL_RADIUS) (number p) fill)) /\
  (exists engine, engineRef s = Some engine /\ gravity_y engine = lit 1) /\
  isDrawingRef s = flag /\
  mountMachine false width height random initialPlayers None flag
  = initialMachine flag.
Proof.
  intros Hnd. cbv zeta.
  destruct (createBalls_spec width height random initialPlayers 0 0 [] []
              Hnd) as (Hk & Hballs & _).
  { intros p _ []. }
  unfold mountMachine, initEffect, ejectionEffect. simpl.
  destruct (createBalls width height random initialPlayers 0 0 [] [])
    as [[balls bodies] k] eqn:E.
  simpl in *. repeat split; try assumption.
  eexists. split; reflexivity.
Qed.

(** X15.  Mounting the lottery machine on players with distinct numbers
    (the canvas being there) creates the engine with gravity 1, whatever the
    drawing flag, and one ball per player: the map holds the players'
    numbers, in the players' order, each with a ball created with that
    number as its label.  Without a canvas nothing is created. *)
Theorem mount_creates_one_ball_per_player (width height : num)
    (random : nat -> num) (initialPlayers : list Player) (flag : bool) :
  NoDup (map number initialPlayers) ->
  let s := mountMachine true width height random initialPlayers None flag in
  Map_keys (bodiesRef s) = map number initialPlayers /\
  (forall p, In p initialPlayers ->
     exists x y fill,
       Map_get (number p) (bodiesRef s)
       = Some (Bodies_circle x y (lit BALL_RADIUS) (number p) fill)) /\
  (exists engine, engineRef s = Some engine /\ gravity_y engine = lit 1) /\
  isDrawingRef s = flag /\
  mountMachine false width height random initialPlayers None flag
  = initialMachine flag.
Proof. intros. apply mountMachine_spec; assumption. Qed.

Lemma gravityEffect_inStep (d d' : DrawStage)
    (s : Machine num Body Composite) :
  inStep (d, s) ->
  remainingPlayers d' = remainingPlayers d ->
  lastDrawnNumber d' = lastDrawnNumber d ->
  inStep (d', updateMachine d d' s) /\
  bodiesRef (updateMachine d d' s) = bodiesRef s.
Proof.
  intros (Hkeys & Hflag & engine & Hengine & Hg) Hrem Hlast.
  unfold updateMachine, inStep. simpl in *.
  rewrite Hlast, sameNumber_refl.
  destruct (Bool.eqb (isDrawing d) (isDrawing d')) eqn:E.
  - apply eqb_prop in E. rewrite <- E, Hrem.
    split; [|reflexivity]. split; [exact Hkeys|]. split; [exact Hflag|].
    exists engine. split; assumption.
  - split; [|reflexivity]. simpl. rewrite Hrem.
    split; [exact Hkeys|]. split; [reflexivity|].
    rewrite Hengine. eexists. split; reflexivity.
Qed.

Lemma ejection_inStep (d d' : DrawStage) (s : Machine num Body Composite)
    (i : nat) (drawn : Player) :
  inStep (d, s) ->
  NoDup (map number (remainingPlayers d)) ->
  (forall n, lastDrawnNumber d = Some n ->
     ~ In n (map number (remainingPlayers d))) ->
  nth_error (remainingPlayers d) i = Some drawn ->
  remainingPlayers d' = splice1 i (remainingPlayers d) ->
  lastDrawnNumber d' = Some (number drawn) ->
  isDrawing d' = isDrawing d ->
  inStep (d', updateMachine d d' s) /\
  bodiesRef (updateMachine d d' s) = Map_delete (number drawn) (bodiesRef s).
Proof.
  intros (Hkeys & Hflag & engine & Hengine & Hg) Hnd Hlast Hn Hrem Hnew
    Hsame.
  simpl in *.
  assert (Hin : In (number drawn) (map number (remainingPlayers d)))
    by (apply in_map, (nth_error_In _ _ Hn)).
  assert (Hdiff : sameNumber (lastDrawnNumber d) (lastDrawnNumber d')
                  = false).
  { rewrite Hnew. destruct (lastDrawnNumber d) as [n|] eqn:El;
      [|reflexivity].
    simpl. destruct (n =? number drawn) eqn:E; [|reflexivity].
    apply Z.eqb_eq in E. subst n. exfalso. exact (Hlast _ eq_refl Hin). }
  unfold updateMachine. rewrite Hdiff, Hsame, eqb_reflx, Hnew.
  rewrite <- Hkeys in Hin.
  destruct (Map_get_in_keys _ _ Hin) as (body & Hbody & _).
  unfold ejectionEffect. rewrite Hengine, Hbody.
  split; [|reflexivity]. unfold inStep. simpl.
  split; [|split].
  - rewrite Map_keys_delete, Hkeys, Hrem, map_splice1.
    apply filter_out_splice1; [exact Hnd|]. apply map_nth_error, Hn.
  - rewrite Hsame. exact Hflag.
  - eexists. split; [reflexivity|]. simpl. rewrite Hsame. exact Hg.
Qed.

Lemma stepWithMachine_following (mounted : JSMap Body) (m : Q)
    (e : StageEvent) (dm : DrawStage * Machine num Body Composite) :
  following mounted dm ->
  exists dm', stepWithMachine m e dm = Some dm' /\ following mounted dm'.
Proof.
  destruct dm as [d s]. intros (Hstep & Hnd & Hlast & Hincl).
  simpl in *. unfold stepWithMachine. simpl.
  assert (Hflag : forall d',
            remainingPlayers d' = remainingPlayers d ->
            lastDrawnNumber d' = lastDrawnNumber d ->
            following mounted (d', updateMachine d d' s)).
  { intros d' Hrem Hl.
    destruct (gravityEffect_inStep d d' s Hstep Hrem Hl) as [Hs Hb].
    split; [exact Hs|]. simpl. rewrite Hrem, Hl, Hb.
    repeat split; assumption. }
  destruct e as [r uuid| |]; simpl.
  - destruct (drawPlayer_Drawn m r uuid d) as (d' & -> & Hd).
    eexists. split; [reflexivity|].
    destruct (Drawn_cases _ _ _ _ Hd)
      as [[_ ->]|(i & drawn & Hn & Hrem & Hnew & Hsame)].
    + apply Hflag; reflexivity.
    + destruct (ejection_inStep d d' s i drawn Hstep Hnd Hlast Hn Hrem
                  Hnew Hsame) as [Hs Hb].
      pose proof (Permutation_NoDup
                    (Permutation_map number (splice1_perm _ _ _ Hn)) Hnd)
        as Hnd'.
      simpl in Hnd'. inversion Hnd' as [|? ? Hout Hrest]; subst.
      split; [exact Hs|]. simpl. rewrite Hrem, Hnew, Hb.
      split; [exact Hrest|]. split.
      * intros n Hsome. injection Hsome as <-. exact Hout.
      * intros kv Hkv. apply Hincl. unfold Map_delete in Hkv.
        apply filter_In in Hkv. tauto.
  - eexists. split; [reflexivity|].
    destruct (pacingEffect_setIsDrawing d) as [-> | ->];
      apply Hflag; reflexivity.
  - eexists. split; [reflexivity|].
    destruct (toggleDraw_setIsDrawing d) as [-> | ->];
      apply Hflag; reflexivity.
Qed.

Lemma runWithMachine_following (mounted : JSMap Body) (m : Q)
    (es : list StageEvent) (dm : DrawStage * Machine num Body Composite) :
  following mounted dm ->
  exists dm',
    runWithMachine m es dm = Some dm' /\
    stageRun m es (fst dm) = Some (fst dm') /\
    following mounted dm'.
Proof.
  revert dm. induction es as [|e es IH]; intros dm Hdm.
  - exists dm. repeat split; try reflexivity; apply Hdm.
  - simpl. destruct (stepWithMachine_following mounted m e dm Hdm)
      as (dm1 & E & Hdm1).
    rewrite E. unfold stepWithMachine in E.
    destruct (stageStep m e (fst dm)) as [d1|]; [|discriminate].
    injection E as <-. simpl in *. apply IH, Hdm1.
Qed.

(** X16.  The lottery machine follows the draw.  Mounted with the draw
    stage on players with distinct numbers, and re-rendered after every
    event of the draw stage, it always holds exactly one ball per entrant of
    the pool, under the entrant's number and in the order of the pool, every
    one of them a ball created at mount time; the flag read by the attractor
    handler is the drawing flag; and the gravity of the engine is 0 while
    drawing and 1 otherwise. *)
Theorem machine_follows_the_draw (width height : num)
    (random : nat -> num) (initialPlayers : list Player)
    (es : list StageEvent) :
  NoDup (map number initialPlayers) ->
  exists d s,
    runWithMachine (stageMatches initialPlayers) es
      (mountDraw true width height random initialPlayers) = Some (d, s) /\
    stageRun (stageMatches initialPlayers) es (initialStage initialPlayers)
    = Some d /\
    Map_keys (bodiesRef s) = map number (remainingPlayers d) /\
    incl (bodiesRef s)
      (bodiesRef (snd (mountDraw true width height random initialPlayers))) /\
    isDrawingRef s = isDrawing d /\
    exists engine,
      engineRef s = Some engine /\
      gravity_y engine = if isDrawing d then lit 0 else lit 1.
Proof.
  intros Hnd.
  pose proof (mountMachine_spec width height random
                initialPlayers false Hnd) as Hmount.
  cbv zeta in Hmount. destruct Hmount as (Hk & _ & Hengine & Hflag & _).
  destruct (runWithMachine_following
              (bodiesRef (snd (mountDraw true width height random
                                 initialPlayers)))
              (stageMatches initialPlayers) es
              (mountDraw true width height random initialPlayers))
    as ([d s] & Hrun & Hstage & (Hkeys & Hf & He) & _ & _ & Hincl).
  - unfold following, inStep, mountDraw. simpl.
    repeat split; try assumption.
    + discriminate.
    + apply incl_refl.
  - exists d, s. simpl in *. repeat split; assumption.
Qed.

End LotteryMachineLifecycleProperties.

Lemma mount_creates_one_ball_per_player_witness :
  NoDup (map number fiveEntrants) /\
  Map_keys
    (bodiesRef (mountMachine true sampleWidth sampleHeight sampleRandom
                  fiveEntrants None false))
  = map number fiveEntrants /\
  exists engine,
    engineRef (mountMachine true sampleWidth sampleHeight sampleRandom
                 fiveEntrants None false) = Some engine /\
    gravity_y engine = lit 1.
Proof.
  split; [exact fiveEntrants_NoDup|].
  destruct (mount_creates_one_ball_per_player sampleWidth sampleHeight
              sampleRandom fiveEntrants false fiveEntrants_NoDup)
    as (Hkeys & _ & Hengine & _).
  split; [exact Hkeys|exact Hengine].
Defined.

Lemma machine_follows_the_draw_witness :
  NoDup (map number fiveEntrants) /\
  exists d s,
    runWithMachine (stageMatches fiveEntrants)
      [ToggleClick; Tick (mkRandom 2 2) "f1"; EffectRun;
       Tick (mkRandom 0 0) "f2"]
      (mountDraw true sampleWidth sampleHeight sampleRandom fiveEntrants)
    = Some (d, s) /\
    Map_keys (bodiesRef s) = map number (remainingPlayers d) /\
    isDrawingRef s = isDrawing d.
Proof.
  split; [exact fiveEntrants_NoDup|].
  destruct (machine_follows_the_draw sampleWidth sampleHeight sampleRandom
              fiveEntrants
              [ToggleClick; Tick (mkRandom 2 2) "f1"; EffectRun;
               Tick (mkRandom 0 0) "f2"] fiveEntrants_NoDup)
    as (d & s & Hrun & _ & Hkeys & _ & Hflag & _).
  exists d, s. split; [exact Hrun|]. split; [exact Hkeys|exact Hflag].
Defined.

(** After C and A are drawn while drawing, the balls 2, 4 and 5 are left
    and gravity is off. *)
Example machine_after_two_draws :
  option_map
    (fun dm => (Map_keys (bodiesRef (snd dm)),
                option_map gravity_y (engineRef (snd dm)),
                isDrawingRef (snd dm)))
    (runWithMachine (stageMatches fiveEntrants)
       [ToggleClick; Tick (mkRandom 2 2) "f1"; EffectRun;
        Tick (mkRandom 0 0) "f2"]
       (mountDraw true sampleWidth sampleHeight sampleRandom fiveEntrants))
  = Some ([2; 4; 5], Some 0%Q, true).
Proof. reflexivity. Qed.

Section AttractorHandlerProperties.

Context {num Body Composite : Type}.
Context `{JSNumber num} `{MatterJS num Body Composite}.



End AttractorHandlerProperties.

(** ** The header of the draw stage *)

(** X18.  Once the pacing effect has run, running it again changes nothing,
    and the header tells the truth: it says DRAWING IN PROGRESS exactly when
    the interval is armed, DRAW COMPLETED exactly when the pool is empty,
    and the button reads Finished exactly when it is disabled. *)
Theorem header_after_pacing_effect (s : DrawStage) :
  let s' := snd (pacingEffect s) in
  pacingEffect s' = (fst (pacingEffect s), s') /\
  (statusText s' = "DRAWING IN PROGRESS"%string <->
   fst (pacingEffect s') = Some DRAW_INTERVAL_MS) /\
  (statusText s' = "DRAW COMPLETED"%string <-> remainingPlayers s' = []) /\
  (buttonLabel s' = "Finished"%string <-> buttonDisabled s' = true).
Proof.
  destruct s as [rem fs h l d hist].
  unfold pacingEffect, statusText, buttonLabel, buttonDisabled. simpl.
  destruct d, rem as [|p ps]; simpl;
    repeat split; intros; try reflexivity; try discriminate.
Qed.

(** ** The lines of the text *)

Lemma split_lines_nonempty (text : string) : split_lines text <> [].
Proof.
  destruct text as [|c rest]; simpl; [discriminate|].
  destruct (Ascii.eqb c newline); [discriminate|].
  destruct (split_lines rest); discriminate.
Qed.

(** Joining the lines with line feeds gives the text back. *)
Lemma split_lines_join (text : string) :
  String.concat (String newline EmptyString) (split_lines text) = text.
Proof.
  induction text as [|c rest IH]; [reflexivity|]. simpl.
  pose proof (split_lines_nonempty rest) as Hne.
  destruct (Ascii.eqb c newline) eqn:E.
  - apply Ascii.eqb_eq in E. subst c.
    destruct (split_lines rest) as [|line lines]; [congruence|].
    transitivity (String newline
                    (String.concat (String newline EmptyString)
                       (line :: lines))); [reflexivity|].
    rewrite IH. reflexivity.
  - destruct (split_lines rest) as [|line lines]; [congruence|].
    transitivity (String c
                    (String.concat (String newline EmptyString)
                       (line :: lines))); [|rewrite IH; reflexivity].
    destruct lines; reflexivity.
Qed.

(** ** The application on a sample session *)

(** After the sample session the draw stage shows Cy and Bob in the pool
    and Ann waiting as home. *)
Example sample_session_end :
  option_map
    (fun u => (stage (app u), map name (players (app u)),
               match screen u with
               | DrawScreen d =>
                   (map name (remainingPlayers d),
                    option_map name (currentHome d), isDrawing d)
               | _ => ([], None, false)
               end))
    (uiRun asciiTrim sampleSession initialUI)
  = Some (DRAW, ["Ann"; "Cy"; "Bob"]%string,
          (["Cy"; "Bob"]%string, Some "Ann"%string, true)).
Proof. reflexivity. Qed.

Lemma draw_stage_gets_valid_entrants_witness :
  exists u d,
    uiRun asciiTrim sampleSession initialUI = Some u /\
    screen u = DrawScreen d /\
    stage (app u) = DRAW /\
    (2 <= length (players (app u)))%nat /\
    NoDup (map number (players (app u))).
Proof.
  destruct (draw_stage_gets_valid_entrants asciiTrim sampleSession)
    as (u & Hrun & Hdraw).
  vm_compute in Hrun. injection Hrun as <-.
  eexists. eexists. split; [reflexivity|]. split; [reflexivity|].
  destruct (Hdraw _ eq_refl) as (Hstage & H2 & _ & Hnd & _).
  split; [exact Hstage|]. split; [exact H2|exact Hnd].
Defined.

Lemma input_stage_review_is_valid_witness :
  exists u i,
    uiRun asciiTrim (firstn 2 sampleSession) initialUI = Some u /\
    screen u = InputScreen i /\
    step i = step2 /\
    (2 <= length (assignedPlayers i))%nat /\
    map number (assignedPlayers i) = numbersUpTo (length (assignedPlayers i)).
Proof.
  destruct (input_stage_review_is_valid asciiTrim (firstn 2 sampleSession))
    as (u & Hrun & _ & _ & Hinput).
  vm_compute in Hrun. injection Hrun as <-.
  eexists. eexists. split; [reflexivity|]. split; [reflexivity|].
  destruct (Hinput _ eq_refl) as (_ & _ & Hvalid).
  split; [reflexivity|]. exact (Hvalid eq_refl).
Defined.

Lemma quota_never_exceeded_witness :
  exists s,
    stageRun (stageMatches fiveEntrants)
      (map (fun t => Tick (fst t) (snd t)) scenarioTicks)
      (initialStage fiveEntrants) = Some s /\
    (exists f, In f (fixtures s) /\ away f = None) /\
    inject_Z (Z.of_nat (matchesSoFar (fixtures s)))
    == stageMatches fiveEntrants.
Proof.
  destruct (quota_never_exceeded fiveEntrants
              (map (fun t => Tick (fst t) (snd t)) scenarioTicks))
    as (s & Hrun & _ & Hbye & _).
  assert (E : stageRun (stageMatches fiveEntrants)
                (map (fun t => Tick (fst t) (snd t)) scenarioTicks)
                (initialStage fiveEntrants) = Some scenarioEnd)
    by reflexivity.
  assert (s = scenarioEnd) by congruence. subst s.
  exists scenarioEnd. split; [exact E|].
  assert (Hex : exists f, In f (fixtures scenarioEnd) /\ away f = None).
  { exists (mkFixture "f5" playerD None). split; [left|]; reflexivity. }
  split; [exact Hex|exact (Hbye Hex)].
Defined.

